(** * Heredity: exact inference over a pedigree by enumeration

    A shallow embedding of [heredity.py].  Python floats are IEEE-754
    binary64 numbers and are modelled by Rocq's primitive floats, so every
    concrete evaluation below is carried out with the rounding the
    interpreter performs.  The integers 0 and 1 that start the sums and the
    product are the floats 0 and 1, which is what Python makes of them at
    the first operation with a float.  Python dictionaries are association
    lists in insertion order, Python sets of names are [gset string], and an
    exception is a value of [result].  Reading the file and the command
    line, and printing, are left out: [load_data] starts from the rows the
    CSV reader yields, [main] from the rows of the file. *)

From Stdlib Require Import Floats ZArith.
From stdpp Require Import base option list list_monad gmap sets strings.

Set Warnings "-inexact-float,-clear-no-such-hyp".
Set Default Proof Using "Type".

(** ** Exceptions *)

Inductive exn : Type :=
  | KeyError
  | NotImplementedError.

Inductive result (A : Type) : Type :=
  | Ok (a : A)
  | Raise (e : exn).
Arguments Ok {A} a.
Arguments Raise {A} e.

#[global] Instance result_ret : MRet result := @Ok.
#[global] Instance result_bind : MBind result := λ A B f m,
  match m with
  | Ok a => f a
  | Raise e => Raise e
  end.

(** ** Dictionaries

    A [dict] lists its items in insertion order; keys are unique in every
    dictionary the program builds. *)

Definition dict (K V : Type) : Type := list (K * V).

Section Dict.
Context {K V : Type} `{EqDecision K}.

Definition keys (d : dict K V) : list K := d.*1.

(** [d[k]] *)
Fixpoint dict_get (d : dict K V) (k : K) : result V :=
  match d with
  | [] => Raise KeyError
  | (k', v) :: d' => if decide (k' = k) then Ok v else dict_get d' k
  end.

(** [d[k] = v]: an existing key keeps its position, a new key goes last. *)
Fixpoint dict_set (d : dict K V) (k : K) (v : V) : dict K V :=
  match d with
  | [] => [(k, v)]
  | (k', v') :: d' =>
      if decide (k' = k) then (k', v) :: d' else (k', v') :: dict_set d' k v
  end.

(** [d[k] += p] *)
Definition dict_add (add : V → V → V) (d : dict K V) (k : K) (p : V)
    : result (dict K V) :=
  v ← dict_get d k; mret (dict_set d k (add v p)).
End Dict.

(** ** The model parameters, [PROBS] *)

Module PROBS.
Definition gene : dict nat float :=
  [(2, 0.01%float); (1, 0.03%float); (0, 0.96%float)].

Definition trait : dict nat (dict bool float) :=
  [ (2, [(true, 0.65%float); (false, 0.35%float)]);
    (1, [(true, 0.56%float); (false, 0.44%float)]);
    (0, [(true, 0.01%float); (false, 0.99%float)]) ].

Definition mutation : float := 0.01%float.
End PROBS.

(** ** People *)

Record person : Type := Person {
  name : string;
  mother : option string;
  father : option string;
  trait : option bool;
}.

(** One line of the CSV file, as [csv.DictReader] hands it over. *)
Record csv_row : Type := CsvRow {
  row_name : string;
  row_mother : string;
  row_father : string;
  row_trait : string;
}.

(** [s or None] *)
Definition or_None (s : string) : option string :=
  if decide (s = "") then None else Some s.

Definition load_data (rows : list csv_row) : dict string person :=
  foldl (λ data row,
           let name := row_name row in
           dict_set data name
             {| name := name;
                mother := or_None (row_mother row);
                father := or_None (row_father row);
                trait := if decide (row_trait row = "1") then Some true
                         else if decide (row_trait row = "0") then Some false
                         else None |})
        [] rows.

(** ** Gene counts *)

(** [x in s] for [x] a name or [None] and [s] a set of names. *)
Definition py_in (x : option string) (s : gset string) : bool :=
  match x with
  | Some n => bool_decide (n ∈ s)
  | None => false
  end.

Definition get_gene_count (person : option string) (one_gene two_genes : gset string)
    : nat :=
  if py_in person one_gene then 1
  else if py_in person two_genes then 2
  else 0.

(** ** The joint probability *)

Section JointProbability.
Local Open Scope float_scope.

Definition _get_pass_probability (gene_count : nat) : float :=
  if decide (gene_count = 0%nat) then PROBS.mutation
  else if decide (gene_count = 1%nat) then
    0.5 * (1 - PROBS.mutation) + 0.5 * PROBS.mutation
  else 1 - PROBS.mutation.

Definition _get_gene_probability (one_gene two_genes : gset string)
    (people : dict string person) (person : string) (gene : nat) : result float :=
  p ← dict_get people person;
  if bool_decide (mother p = None ∧ father p = None) then dict_get PROBS.gene gene
  else
    let mother_gene_count := get_gene_count (mother p) one_gene two_genes in
    let father_gene_count := get_gene_count (father p) one_gene two_genes in
    let mother_pass_probability := _get_pass_probability mother_gene_count in
    let father_pass_probability := _get_pass_probability father_gene_count in
    if decide (gene = 0%nat) then
      mret ((1 - mother_pass_probability) * (1 - father_pass_probability))
    else if decide (gene = 1%nat) then
      mret ((1 - mother_pass_probability) * father_pass_probability
            + (1 - father_pass_probability) * mother_pass_probability)
    else mret (mother_pass_probability * father_pass_probability).

Definition _get_trait_probability (gene_count : nat) (has_trait : bool)
    : result float :=
  t ← dict_get PROBS.trait gene_count; dict_get t has_trait.

(** The body of the loop over [people]: one person's factor. *)
Definition person_probability (people : dict string person)
    (one_gene two_genes have_trait : gset string) (person : string) : result float :=
  let gene_count := get_gene_count (Some person) one_gene two_genes in
  gene_probability ← _get_gene_probability one_gene two_genes people person gene_count;
  let has_trait := bool_decide (person ∈ have_trait) in
  trait_probability ← _get_trait_probability gene_count has_trait;
  mret (gene_probability * trait_probability).

Definition joint_probability (people : dict string person)
    (one_gene two_genes have_trait : gset string) : result float :=
  probabilities ← mapM (person_probability people one_gene two_genes have_trait)
                       (keys people);
  mret (foldl PrimFloat.mul 1 probabilities).
End JointProbability.

(** ** Enumeration of subsets *)

(** [itertools.combinations(l, r)]: the [r]-element subsequences of [l], in
    lexicographic order of their positions. *)
Fixpoint combinations {A : Type} (l : list A) (r : nat) : list (list A) :=
  match l with
  | [] => match r with 0 => [[]] | S _ => [] end
  | x :: l' =>
      match r with
      | 0 => [[]]
      | S r' => (cons x <$> combinations l' r') ++ combinations l' (S r')
      end
  end.

(** ** Accumulated distributions *)

Module Dist.
Record t : Type := Make {
  gene : dict nat float;
  trait : dict bool float;
}.
End Dist.

Definition update (probabilities : dict string Dist.t)
    (one_gene two_genes have_trait : gset string) (p : float)
    : result (dict string Dist.t) :=
  mapM (λ item : string * Dist.t,
          let person := item.1 in
          let gene_count := get_gene_count (Some person) one_gene two_genes in
          let trait := bool_decide (person ∈ have_trait) in
          g ← dict_add PrimFloat.add (Dist.gene item.2) gene_count p;
          t ← dict_add PrimFloat.add (Dist.trait item.2) trait p;
          mret (person, {| Dist.gene := g; Dist.trait := t |}))
       probabilities.

Definition normalize (probabilities : dict string Dist.t)
    : result (dict string Dist.t) :=
  Raise NotImplementedError.

(** ** Loops *)

(** [for x in l: s = body(s, x)], stopping at the first exception. *)
Fixpoint for_each {A S : Type} (l : list A) (body : S → A → result S) (s : S)
    : result S :=
  match l with
  | [] => mret s
  | x :: l' => s' ← body s x; for_each l' body s'
  end.

(** [any(f(x) for x in l)]: stops at the first [True]. *)
Fixpoint any_of {A : Type} (f : A → result bool) (l : list A) : result bool :=
  match l with
  | [] => mret false
  | x :: l' => b ← f x; if b : bool then mret true else any_of f l'
  end.

(** ** The engine

    The order in which Python walks a set is left open by the language (it
    follows the hashes of the names, which change from one interpreter
    process to the next).  [iter_set] stands for that order; all that is
    known of it is that it lists the elements of the set. *)

Section Engine.
Variable iter_set : gset string → list string.
Hypothesis iter_set_perm : ∀ s, iter_set s ≡ₚ elements s.

Definition powerset (s : gset string) : list (gset string) :=
  let s := iter_set s in
  list_to_set <$> (seq 0 (length s + 1) ≫= combinations s).

Definition fails_evidence (people : dict string person) (names have_trait : gset string)
    : result bool :=
  any_of (λ person,
            p ← dict_get people person;
            mret (bool_decide (trait p ≠ None)
                  && bool_decide (trait p ≠ Some (bool_decide (person ∈ have_trait)))))
         (iter_set names).

(** Lines 29 to 54 of [main]: the distributions handed to [normalize]. *)
Definition accumulate (people : dict string person) : result (dict string Dist.t) :=
  let probabilities :=
    (λ person,
       (person, {| Dist.gene := [(2, 0%float); (1, 0%float); (0, 0%float)];
                   Dist.trait := [(true, 0%float); (false, 0%float)] |}))
    <$> keys people in
  let names : gset string := list_to_set (keys people) in
  for_each (powerset names) (λ probabilities have_trait,
    fails_evidence ← fails_evidence people names have_trait;
    if fails_evidence : bool then mret probabilities
    else
      for_each (powerset names) (λ probabilities one_gene,
        for_each (powerset (names ∖ one_gene)) (λ probabilities two_genes,
          p ← joint_probability people one_gene two_genes have_trait;
          update probabilities one_gene two_genes have_trait p)
        probabilities)
      probabilities)
    probabilities.

Definition main (rows : list csv_row) : result (dict string Dist.t) :=
  let people := load_data rows in
  probabilities ← accumulate people;
  probabilities ← normalize probabilities;
  mret probabilities.
End Engine.

(** ** The joint probability as the specification words it

    A person's factor is the probability of their gene count (the founder
    prior, or the transmission formula from both parents' pass
    probabilities) times the probability of their trait given that count;
    the joint probability is the product of the factors, taken in the order
    of the population. *)

Module Spec.
Section Spec.
Local Open Scope float_scope.
Variables one_gene two_genes have_trait : gset string.

Definition copies (n : string) : nat :=
  if bool_decide (n ∈ one_gene) then 1
  else if bool_decide (n ∈ two_genes) then 2
  else 0.

Definition founder_prior (c : nat) : float :=
  match c with
  | 0%nat => 0.96
  | 1%nat => 0.03
  | _ => 0.01
  end.

Definition pass_probability (c : nat) : float :=
  match c with
  | 0%nat => 0.01
  | 1%nat => 0.5 * (1 - 0.01) + 0.5 * 0.01
  | _ => 1 - 0.01
  end.

Definition child_probability (pass_mother pass_father : float) (c : nat) : float :=
  match c with
  | 0%nat => (1 - pass_mother) * (1 - pass_father)
  | 1%nat => (1 - pass_mother) * pass_father + (1 - pass_father) * pass_mother
  | _ => pass_mother * pass_father
  end.

Definition trait_probability (c : nat) (t : bool) : float :=
  match c with
  | 0%nat => if t then 0.01 else 0.99
  | 1%nat => if t then 0.56 else 0.44
  | _ => if t then 0.65 else 0.35
  end.

Definition gene_probability (n : string) (p : person) : float :=
  match mother p, father p with
  | Some m, Some f =>
      child_probability (pass_probability (copies m)) (pass_probability (copies f))
        (copies n)
  | _, _ => founder_prior (copies n)
  end.

Definition factor (item : string * person) : float :=
  gene_probability item.1 item.2
  * trait_probability (copies item.1) (bool_decide (item.1 ∈ have_trait)).

Definition joint (people : dict string person) : float :=
  foldl PrimFloat.mul 1 (factor <$> people).
End Spec.
End Spec.

(** A population is well formed when names are unique and every person has
    either no parent or two parents who are both in the population. *)
Definition well_formed (people : dict string person) : bool :=
  bool_decide (NoDup (keys people))
  && forallb (λ item : string * person,
                match mother item.2, father item.2 with
                | None, None => true
                | Some m, Some f =>
                    bool_decide (m ∈ keys people) && bool_decide (f ∈ keys people)
                | _, _ => false
                end) people.

(** ** Signs of binary64 numbers *)

Definition sf_nonneg (x : spec_float) : bool :=
  match x with
  | S754_zero _ | S754_finite false _ _ | S754_infinity false => true
  | _ => false
  end.

Definition sf_pos_finite (x : spec_float) : bool :=
  match x with
  | S754_finite false _ _ => true
  | _ => false
  end.

(** [x] is a zero, a positive number or plus infinity: not negative, not NaN. *)
Definition nonneg (x : float) : bool := sf_nonneg (Prim2SF x).

(** [x] is a positive finite number. *)
Definition pos_finite (x : float) : bool := sf_pos_finite (Prim2SF x).

(** ** Inputs used as examples *)

Definition family0 : list csv_row :=
  [ CsvRow "Harry" "Lily" "James" "";
    CsvRow "James" "" "" "1";
    CsvRow "Lily" "" "" "0" ].

Definition single_founder (n : string) : list csv_row := [CsvRow n "" "" ""].

(** A file naming parents that have no row of their own. *)
Definition orphan_rows : list csv_row := [CsvRow "Harry" "Lily" "James" ""].

(** A file with two rows for one name. *)
Definition duplicate_rows : list csv_row :=
  [CsvRow "Harry" "" "" "1"; CsvRow "Harry" "" "" "0"].

(** A person for whom only the mother is recorded. *)
Definition half_orphan_rows : list csv_row :=
  [CsvRow "Harry" "Lily" "" ""; CsvRow "Lily" "" "" ""].

(** ** Auxiliary notions used in the statements *)

(** The record [load_data] stores for a row. *)
Definition person_of_row (row : csv_row) : person :=
  {| name := row_name row;
     mother := or_None (row_mother row);
     father := or_None (row_father row);
     trait := if decide (row_trait row = "1") then Some true
              else if decide (row_trait row = "0") then Some false
              else None |}.

(** The distributions of one person have the three gene buckets and the
    two trait buckets [main] creates. *)
Definition well_shaped (d : Dist.t) : Prop :=
  keys (Dist.gene d) = [2; 1; 0] ∧ keys (Dist.trait d) = [true; false].

(** [item'] is [item] after [p] was added to the gene bucket of the
    person's gene count and to the trait bucket of the person's membership
    in [have_trait], every other bucket being as before. *)
Definition updated (one_gene two_genes have_trait : gset string) (p : float)
    (item item' : string * Dist.t) : Prop :=
  item'.1 = item.1
  ∧ well_shaped item'.2
  ∧ (∀ k v, dict_get (Dist.gene item.2) k = Ok v →
       dict_get (Dist.gene item'.2) k
       = Ok (if decide (k = get_gene_count (Some item.1) one_gene two_genes)
             then (v + p)%float else v))
  ∧ (∀ k v, dict_get (Dist.trait item.2) k = Ok v →
       dict_get (Dist.trait item'.2) k
       = Ok (if decide (k = bool_decide (item.1 ∈ have_trait))
             then (v + p)%float else v)).

(** The condition the docstring of [load_data] puts on the file: names are
    unique, and the two parent fields of a row are both blank or both name
    a row of the file. *)
Definition file_well_formed (rows : list csv_row) : Prop :=
  NoDup (row_name <$> rows)
  ∧ ∀ r, r ∈ rows →
      (row_mother r = "" ∧ row_father r = "")
      ∨ (row_mother r ≠ "" ∧ row_father r ≠ ""
         ∧ row_mother r ∈ (row_name <$> rows) ∧ row_father r ∈ (row_name <$> rows)).

(** Every weight of a person's two distributions is a number that is not
    negative. *)
Definition weights_nonneg (d : Dist.t) : Prop :=
  (∀ k v, dict_get (Dist.gene d) k = Ok v → (0 <=? v)%float = true)
  ∧ (∀ k v, dict_get (Dist.trait d) k = Ok v → (0 <=? v)%float = true).

(** * Proofs *)

(** ** The exception monad *)

Lemma bind_Ok {A B : Type} (m : result A) (f : A → result B) (b : B) :
  m ≫= f = Ok b ↔ ∃ a, m = Ok a ∧ f a = Ok b.
Proof.
  destruct m as [a|e]; simpl.
  - split; [eauto|]. by intros (a' & [= <-] & ?).
  - split; [done|]. by intros (? & ? & ?).
Qed.

Lemma mapM_Ok_pure {A B : Type} (f : A → result B) (g : A → B) (l : list A) :
  (∀ x, x ∈ l → f x = Ok (g x)) → mapM f l = Ok (g <$> l).
Proof.
  induction l as [|x l IH]; intros Hf; [done|]. simpl.
  rewrite Hf by left. simpl. rewrite IH; [done|].
  intros y Hy. apply Hf. by right.
Qed.

Lemma mapM_Ok_inv {A B : Type} (f : A → result B) (l : list A) (k : list B) :
  mapM f l = Ok k → Forall2 (λ x y, f x = Ok y) l k.
Proof.
  revert k. induction l as [|x l IH]; intros k; simpl.
  - intros [= <-]. constructor.
  - intros (y & Hy & (k' & Hk' & [= <-])%bind_Ok)%bind_Ok. constructor; auto.
Qed.

Lemma for_each_inv {A S : Type} (P : S → Prop) (l : list A)
    (body : S → A → result S) (s : S) :
  P s →
  (∀ s x, x ∈ l → P s → ∃ s', body s x = Ok s' ∧ P s') →
  ∃ s', for_each l body s = Ok s' ∧ P s'.
Proof.
  revert s. induction l as [|x l IH]; intros s Hs Hbody; simpl; [eauto|].
  destruct (Hbody s x) as (s1 & -> & Hs1); [left|done|]. simpl.
  apply IH; [done|]. intros s2 y Hy. apply Hbody. by right.
Qed.

(** ** Dictionaries *)

Section DictFacts.
Context {K V : Type} `{EqDecision K}.
Implicit Types (d : dict K V) (k : K) (v : V).

Lemma dict_get_elem_of d k v : dict_get d k = Ok v → (k, v) ∈ d.
Proof.
  induction d as [|[k' v'] d IH]; simpl; [done|].
  case_decide as Hk.
  - intros [= ->]. subst. left.
  - intros ?. right. auto.
Qed.

Lemma dict_get_in_keys d k : k ∈ keys d → ∃ v, dict_get d k = Ok v.
Proof.
  unfold keys. induction d as [|[k' v'] d IH]; simpl.
  - by intros ?%elem_of_nil.
  - intros [->|?]%elem_of_cons; case_decide; eauto; done.
Qed.

Lemma dict_get_not_in_keys d k : k ∉ keys d → dict_get d k = Raise KeyError.
Proof.
  unfold keys. induction d as [|[k' v'] d IH]; simpl; [done|].
  intros [? ?]%not_elem_of_cons. case_decide; [congruence|auto].
Qed.

Lemma dict_get_NoDup d k v : NoDup (keys d) → (k, v) ∈ d → dict_get d k = Ok v.
Proof.
  unfold keys. induction d as [|[k' v'] d IH]; simpl.
  - by intros _ ?%elem_of_nil.
  - intros [Hk' Hd]%NoDup_cons [[= -> ->]|Hin]%elem_of_cons.
    + by rewrite decide_True.
    + rewrite decide_False; [auto|]. intros ->. apply Hk'.
      apply list_elem_of_fmap. by exists (k, v).
Qed.

Lemma dict_get_set_eq d k v : dict_get (dict_set d k v) k = Ok v.
Proof.
  induction d as [|[k' v'] d IH]; simpl.
  - by rewrite decide_True.
  - case_decide as Hk; simpl; [by rewrite decide_True|by rewrite decide_False].
Qed.

Lemma dict_get_set_ne d k k' v : k ≠ k' → dict_get (dict_set d k v) k' = dict_get d k'.
Proof.
  intros Hne. induction d as [|[k0 v0] d IH]; simpl.
  - by rewrite decide_False.
  - case_decide as Hk; simpl; [subst|by rewrite IH].
    by rewrite !decide_False.
Qed.

Lemma keys_dict_set_in d k v : k ∈ keys d → keys (dict_set d k v) = keys d.
Proof.
  unfold keys. induction d as [|[k' v'] d IH]; simpl.
  - by intros ?%elem_of_nil.
  - intros Hin. case_decide as Hk; simpl; [done|]. f_equal. apply IH.
    apply elem_of_cons in Hin as [->|?]; done.
Qed.

Lemma keys_dict_set_notin d k v : k ∉ keys d → keys (dict_set d k v) = keys d ++ [k].
Proof.
  unfold keys. induction d as [|[k' v'] d IH]; simpl; [done|].
  intros [? ?]%not_elem_of_cons. rewrite decide_False by done. simpl. f_equal. auto.
Qed.

Lemma NoDup_keys_dict_set d k v : NoDup (keys d) → NoDup (keys (dict_set d k v)).
Proof.
  intros Hd. destruct (decide (k ∈ keys d)) as [Hin|Hin].
  - by rewrite keys_dict_set_in.
  - rewrite keys_dict_set_notin by done. apply NoDup_app. split_and!; [done| |].
    + intros x Hx ->%list_elem_of_singleton. done.
    + apply NoDup_singleton.
Qed.

Lemma dict_add_Ok (add : V → V → V) d k v p :
  dict_get d k = Ok v → dict_add add d k p = Ok (dict_set d k (add v p)).
Proof. unfold dict_add. by intros ->. Qed.
End DictFacts.

(** ** [normalize] *)

(** C1: [normalize] does not rescale anything: whatever distributions it is
    given, it raises [NotImplementedError]. *)
Theorem normalize_raises (probabilities : dict string Dist.t) :
  normalize probabilities = Raise NotImplementedError.
Proof. reflexivity. Qed.

(** ** Signs of products of binary64 numbers *)

Lemma shr_1_nonneg mrs : (0 ≤ shr_m mrs)%Z → (0 ≤ shr_m (shr_1 mrs))%Z.
Proof. destruct mrs as [[|[p|p|]|p] r s]; cbn; lia. Qed.

Lemma iter_pos_shr_1_nonneg p mrs :
  (0 ≤ shr_m mrs)%Z → (0 ≤ shr_m (SpecFloat.iter_pos shr_1 p mrs))%Z.
Proof.
  revert mrs. induction p as [p IH|p IH|]; intros mrs Hm; cbn [SpecFloat.iter_pos].
  - apply IH, IH, shr_1_nonneg, Hm.
  - apply IH, IH, Hm.
  - apply shr_1_nonneg, Hm.
Qed.

Lemma shr_fexp_nonneg prec emax m e l :
  (0 ≤ m)%Z → (0 ≤ shr_m (shr_fexp prec emax m e l).1)%Z.
Proof.
  intros Hm. unfold shr_fexp, shr.
  assert (shr_m (shr_record_of_loc m l) = m) as Hrec
    by (destruct l as [|[]]; reflexivity).
  rewrite <- Hrec in Hm.
  destruct (fexp prec emax (Zdigits2 m + e) - e)%Z; cbn [fst];
    auto using iter_pos_shr_1_nonneg.
Qed.

Lemma round_nearest_even_nonneg m l : (0 ≤ m)%Z → (0 ≤ round_nearest_even m l)%Z.
Proof.
  intros Hm. destruct l as [|[]]; cbn [round_nearest_even]; try destruct (Z.even m); lia.
Qed.

(** Rounding a non-negative significand never yields a negative number or
    a NaN. *)
Lemma binary_round_aux_nonneg prec emax m e l :
  (0 ≤ m)%Z → sf_nonneg (binary_round_aux prec emax false m e l) = true.
Proof.
  intros Hm. unfold binary_round_aux.
  pose proof (shr_fexp_nonneg prec emax m e l Hm) as H1.
  destruct (shr_fexp prec emax m e l) as [mrs' e']. cbn [fst] in H1.
  pose proof (shr_fexp_nonneg prec emax _ e' loc_Exact
                (round_nearest_even_nonneg _ (loc_of_shr_record mrs') H1)) as H2.
  destruct (shr_fexp prec emax _ e' loc_Exact) as [mrs'' e'']. cbn [fst] in H2.
  destruct (shr_m mrs'') as [|p|p]; [reflexivity| |lia].
  destruct (Z.leb e'' (emax - prec)); reflexivity.
Qed.

Lemma SFmul_nonneg prec emax x y :
  sf_nonneg x = true → sf_pos_finite y = true → sf_nonneg (SFmul prec emax x y) = true.
Proof.
  destruct x as [sx|[]| |[] mx ex], y as [sy|sy| |[] my ey];
    cbn [sf_nonneg sf_pos_finite SFmul xorb]; try discriminate; try reflexivity.
  intros _ _. apply binary_round_aux_nonneg. lia.
Qed.

Lemma mul_nonneg (x y : float) :
  nonneg x = true → pos_finite y = true → nonneg (x * y) = true.
Proof. unfold nonneg, pos_finite. rewrite mul_spec. apply SFmul_nonneg. Qed.

Lemma nonneg_leb (x : float) : nonneg x = true → (0 <=? x)%float = true.
Proof.
  unfold nonneg. rewrite leb_spec.
  replace (Prim2SF 0) with (S754_zero false) by (vm_compute; reflexivity).
  destruct (Prim2SF x) as [|[]| |[]]; cbn; congruence.
Qed.

Lemma foldl_mul_nonneg (acc : float) (l : list float) :
  nonneg acc = true → Forall (λ x, pos_finite x = true) l →
  nonneg (foldl PrimFloat.mul acc l) = true.
Proof.
  intros Hacc Hl. revert acc Hacc.
  induction Hl as [|x l Hx _ IH]; intros acc Hacc; cbn [foldl]; [done|].
  apply IH. by apply mul_nonneg.
Qed.

(** ** Gene counts *)

Lemma get_gene_count_cases person one_gene two_genes :
  get_gene_count person one_gene two_genes = 0
  ∨ get_gene_count person one_gene two_genes = 1
  ∨ get_gene_count person one_gene two_genes = 2.
Proof. unfold get_gene_count. repeat case_match; auto. Qed.

Lemma get_gene_count_None one_gene two_genes :
  get_gene_count None one_gene two_genes = 0.
Proof. reflexivity. Qed.

Lemma get_gene_count_copies n one_gene two_genes :
  get_gene_count (Some n) one_gene two_genes = Spec.copies one_gene two_genes n.
Proof. reflexivity. Qed.

(** ** Pass probabilities *)

(** C4: a parent with no copy passes the gene with the mutation
    probability, a parent with one copy with probability exactly one half,
    and a parent with two copies with one minus the mutation probability,
    which is 0.01. *)
Theorem pass_probability_values :
  _get_pass_probability 0 = PROBS.mutation
  ∧ _get_pass_probability 1 = 0.5%float
  ∧ _get_pass_probability 2 = (1 - PROBS.mutation)%float
  ∧ PROBS.mutation = 0.01%float.
Proof. repeat split; vm_compute; reflexivity. Qed.

Lemma pass_probability_spec c :
  _get_pass_probability c = Spec.pass_probability c.
Proof. by destruct c as [|[|c]]. Qed.

(** ** The probability of a gene count *)

Ltac case_bool_decides :=
  repeat match goal with
         | |- context [bool_decide ?P] => destruct (bool_decide P)
         end.

Lemma gene_probability_founder one_gene two_genes people person p gene :
  dict_get people person = Ok p → mother p = None → father p = None →
  _get_gene_probability one_gene two_genes people person gene
  = dict_get PROBS.gene gene.
Proof.
  intros Hp Hm Hf. unfold _get_gene_probability. rewrite Hp. simpl.
  by rewrite bool_decide_true.
Qed.

Lemma gene_probability_child one_gene two_genes people person p gene :
  dict_get people person = Ok p → mother p ≠ None ∨ father p ≠ None →
  _get_gene_probability one_gene two_genes people person gene
  = Ok (Spec.child_probability
          (_get_pass_probability (get_gene_count (mother p) one_gene two_genes))
          (_get_pass_probability (get_gene_count (father p) one_gene two_genes))
          gene).
Proof.
  intros Hp Hparent. unfold _get_gene_probability. rewrite Hp. simpl.
  rewrite bool_decide_false by tauto.
  by destruct gene as [|[|gene]].
Qed.

Lemma child_probability_sum (mother_count father_count : nat) :
  let pass_mother := _get_pass_probability mother_count in
  let pass_father := _get_pass_probability father_count in
  (Spec.child_probability pass_mother pass_father 0
   + Spec.child_probability pass_mother pass_father 1
   + Spec.child_probability pass_mother pass_father 2 = 1)%float.
Proof.
  destruct mother_count as [|[|m]], father_count as [|[|f]]; vm_compute; reflexivity.
Qed.

(** C5: for a person with a recorded parent, the probabilities of zero, one
    and two copies are the three products of the parents' pass
    probabilities, and they add up to exactly 1, whatever the parents' gene
    counts are. *)
Theorem child_gene_probabilities_sum_to_one
    (people : dict string person) (p : person) (child : string)
    (one_gene two_genes : gset string) :
  dict_get people child = Ok p →
  mother p ≠ None ∨ father p ≠ None →
  let pass_mother := _get_pass_probability (get_gene_count (mother p) one_gene two_genes) in
  let pass_father := _get_pass_probability (get_gene_count (father p) one_gene two_genes) in
  ∃ p0 p1 p2 : float,
    _get_gene_probability one_gene two_genes people child 0 = Ok p0
    ∧ _get_gene_probability one_gene two_genes people child 1 = Ok p1
    ∧ _get_gene_probability one_gene two_genes people child 2 = Ok p2
    ∧ p0 = ((1 - pass_mother) * (1 - pass_father))%float
    ∧ p1 = ((1 - pass_mother) * pass_father + (1 - pass_father) * pass_mother)%float
    ∧ p2 = (pass_mother * pass_father)%float
    ∧ (p0 + p1 + p2 = 1)%float.
Proof.
  intros Hp Hparent pass_mother pass_father.
  eexists _, _, _.
  rewrite !(gene_probability_child _ _ _ _ p) by done.
  split_and!; try reflexivity.
  apply child_probability_sum.
Qed.

Lemma child_gene_probabilities_sum_to_one_witness :
  let people := load_data family0 in
  ∃ p0 p1 p2 : float,
    _get_gene_probability {["Lily"]} {["James"]} people "Harry" 0 = Ok p0
    ∧ _get_gene_probability {["Lily"]} {["James"]} people "Harry" 1 = Ok p1
    ∧ _get_gene_probability {["Lily"]} {["James"]} people "Harry" 2 = Ok p2
    ∧ (p0 + p1 + p2 = 1)%float.
Proof.
  destruct (child_gene_probabilities_sum_to_one (load_data family0)
              (Person "Harry" (Some "Lily") (Some "James") None) "Harry"
              {["Lily"]} {["James"]})
    as (p0 & p1 & p2 & H0 & H1 & H2 & _ & _ & _ & Hsum).
  - vm_compute. reflexivity.
  - left. discriminate.
  - exists p0, p1, p2. auto.
Defined.

Lemma trait_probability_spec c t :
  c ≤ 2 → _get_trait_probability c t = Ok (Spec.trait_probability c t).
Proof. destruct c as [|[|[|c]]], t; intros; (reflexivity || lia). Qed.

Lemma founder_prior_spec c :
  c ≤ 2 → dict_get PROBS.gene c = Ok (Spec.founder_prior c).
Proof. destruct c as [|[|[|c]]]; intros; (reflexivity || lia). Qed.

Lemma get_gene_count_le person one_gene two_genes :
  get_gene_count person one_gene two_genes ≤ 2.
Proof. destruct (get_gene_count_cases person one_gene two_genes) as [->|[->| ->]]; lia. Qed.

(** C10: the founder prior is used only when both parents are absent.  With
    exactly one parent recorded the transmission formula is used: the
    absent parent counts as having no copy, passes the gene with the
    mutation probability, and no exception is raised. *)
Theorem one_parent_takes_transmission_branch
    (people : dict string person) (p : person) (child : string)
    (one_gene two_genes have_trait : gset string) (gene : nat) :
  dict_get people child = Ok p →
  (mother p = None → father p = None →
     _get_gene_probability one_gene two_genes people child gene
     = dict_get PROBS.gene gene)
  ∧ (∀ m, mother p = Some m → father p = None →
       get_gene_count (father p) one_gene two_genes = 0
       ∧ _get_pass_probability (get_gene_count (father p) one_gene two_genes)
         = PROBS.mutation
       ∧ _get_gene_probability one_gene two_genes people child gene
         = Ok (Spec.child_probability
                 (_get_pass_probability (get_gene_count (Some m) one_gene two_genes))
                 PROBS.mutation gene))
  ∧ (∀ f, mother p = None → father p = Some f →
       get_gene_count (mother p) one_gene two_genes = 0
       ∧ _get_pass_probability (get_gene_count (mother p) one_gene two_genes)
         = PROBS.mutation
       ∧ _get_gene_probability one_gene two_genes people child gene
         = Ok (Spec.child_probability PROBS.mutation
                 (_get_pass_probability (get_gene_count (Some f) one_gene two_genes))
                 gene))
  ∧ ∃ x, person_probability people one_gene two_genes have_trait child = Ok x.
Proof.
  intros Hp. split_and!.
  - intros. by eapply gene_probability_founder.
  - intros m Hm Hf.
    rewrite (gene_probability_child _ _ _ _ p) by (rewrite ?Hm; auto).
    by rewrite Hm, Hf.
  - intros f Hm Hf.
    rewrite (gene_probability_child _ _ _ _ p) by (rewrite ?Hf; auto).
    by rewrite Hm, Hf.
  - unfold person_probability.
    pose proof (get_gene_count_le (Some child) one_gene two_genes) as Hle.
    rewrite (trait_probability_spec _ _ Hle).
    destruct (decide (mother p = None ∧ father p = None)) as [[Hm Hf]|Hparent].
    + rewrite (gene_probability_founder _ _ _ _ p) by done.
      rewrite (founder_prior_spec _ Hle). simpl. eauto.
    + rewrite (gene_probability_child _ _ _ _ p); [simpl; eauto|done|].
      destruct (mother p), (father p);
        first [left; discriminate | right; discriminate | tauto].
Qed.

Lemma one_parent_takes_transmission_branch_witness :
  _get_gene_probability {["Lily"]} ∅ (load_data half_orphan_rows) "Harry" 2
  = Ok (0.5 * 0.01)%float.
Proof.
  pose proof (one_parent_takes_transmission_branch (load_data half_orphan_rows)
                (Person "Harry" (Some "Lily") None None) "Harry" {["Lily"]} ∅ ∅ 2
                ltac:(vm_compute; reflexivity)) as (_ & H & _ & _).
  destruct (H "Lily" eq_refl eq_refl) as (_ & _ & ->).
  vm_compute. reflexivity.
Defined.

(** ** The joint probability is a product of per-person factors *)

Lemma well_formed_NoDup people : well_formed people = true → NoDup (keys people).
Proof. unfold well_formed. intros [H _]%andb_prop. by apply bool_decide_eq_true in H. Qed.

Lemma well_formed_parents people n p :
  well_formed people = true → (n, p) ∈ people →
  (mother p = None ∧ father p = None)
  ∨ (∃ m f, mother p = Some m ∧ father p = Some f ∧ m ∈ keys people ∧ f ∈ keys people).
Proof.
  unfold well_formed. intros [_ H]%andb_prop Hin.
  rewrite forallb_forall in H. apply list_elem_of_In, H in Hin. simpl in Hin.
  destruct (mother p) as [m|], (father p) as [f|]; try done; [|by left].
  right. apply andb_prop in Hin as [Hm Hf].
  exists m, f. split_and!; [done|done| |]; by eapply bool_decide_eq_true.
Qed.

Lemma person_probability_factor people one_gene two_genes have_trait n p :
  well_formed people = true → (n, p) ∈ people →
  person_probability people one_gene two_genes have_trait n
  = Ok (Spec.factor one_gene two_genes have_trait (n, p)).
Proof.
  intros Hwf Hin. unfold person_probability, Spec.factor, Spec.gene_probability.
  pose proof (dict_get_NoDup _ _ _ (well_formed_NoDup _ Hwf) Hin) as Hp.
  pose proof (get_gene_count_le (Some n) one_gene two_genes) as Hle.
  rewrite (trait_probability_spec _ _ Hle). cbn [fst snd].
  destruct (well_formed_parents _ _ _ Hwf Hin) as [[Hm Hf]|(m & f & Hm & Hf & _)].
  - rewrite (gene_probability_founder _ _ _ _ p) by done.
    rewrite (founder_prior_spec _ Hle), Hm. reflexivity.
  - rewrite (gene_probability_child _ _ _ _ p) by (done || (left; congruence)).
    rewrite Hm, Hf, !pass_probability_spec. reflexivity.
Qed.

Lemma mapM_person_probability people one_gene two_genes have_trait
    (items : list (string * person)) :
  well_formed people = true → items ⊆ people →
  mapM (person_probability people one_gene two_genes have_trait) items.*1
  = Ok (Spec.factor one_gene two_genes have_trait <$> items).
Proof.
  intros Hwf. induction items as [|[n p] items IH]; intros Hsub; [done|].
  cbn [fmap list_fmap fst mapM].
  rewrite (person_probability_factor _ _ _ _ n p) by (try apply Hsub; done || left).
  simpl. rewrite IH; [done|]. intros x Hx. apply Hsub. by right.
Qed.

Lemma factor_pos_finite one_gene two_genes have_trait item :
  pos_finite (Spec.factor one_gene two_genes have_trait item) = true.
Proof.
  destruct item as [n p].
  unfold Spec.factor, Spec.gene_probability, Spec.copies. cbn [fst snd].
  destruct (mother p) as [m|], (father p) as [f|];
    case_bool_decides; vm_compute; reflexivity.
Qed.

Lemma joint_nonneg one_gene two_genes have_trait people :
  nonneg (Spec.joint one_gene two_genes have_trait people) = true.
Proof.
  unfold Spec.joint. apply foldl_mul_nonneg; [vm_compute; reflexivity|].
  apply Forall_fmap, Forall_forall. intros item _. apply factor_pos_finite.
Qed.

(** C3: on a well-formed population [joint_probability] returns a number,
    which is the product over the people of the probability of their gene
    count (the prior 0.96, 0.03, 0.01 for a founder, the transmission
    formula from both parents' pass probabilities for a child) times the
    probability of their trait given that count, and is not negative. *)
Theorem joint_probability_is_product
    (people : dict string person) (one_gene two_genes have_trait : gset string) :
  well_formed people = true →
  ∃ p : float,
    joint_probability people one_gene two_genes have_trait = Ok p
    ∧ p = Spec.joint one_gene two_genes have_trait people
    ∧ (0 <=? p)%float = true.
Proof.
  intros Hwf. exists (Spec.joint one_gene two_genes have_trait people).
  split_and!; [|done|by apply nonneg_leb, joint_nonneg].
  unfold joint_probability, keys.
  by rewrite (mapM_person_probability _ _ _ _ people Hwf).
Qed.

Lemma joint_probability_is_product_witness :
  ∃ p : float,
    joint_probability (load_data family0) {["Harry"]} {["James"]} {["James"]} = Ok p
    ∧ p = Spec.joint {["Harry"]} {["James"]} {["James"]} (load_data family0)
    ∧ (0 <=? p)%float = true.
Proof.
  apply (joint_probability_is_product (load_data family0)).
  vm_compute. reflexivity.
Defined.

(** ** Combinations *)

Section Combinations.
Context {A : Type}.
Implicit Types (l t : list A) (r n : nat).

Lemma combinations_0 l : combinations l 0 = [[]].
Proof. by destruct l. Qed.

Lemma elem_of_combinations l r t :
  t ∈ combinations l r ↔ t `sublist_of` l ∧ length t = r.
Proof.
  revert r t. induction l as [|x l IH]; intros r t.
  - rewrite sublist_nil_r. destruct r; simpl.
    + rewrite list_elem_of_singleton. naive_solver.
    + rewrite elem_of_nil. naive_solver.
  - destruct r as [|r]; simpl.
    + rewrite list_elem_of_singleton. split.
      * intros ->. split; [apply sublist_nil_l|done].
      * intros [_ ?]. by apply nil_length_inv.
    + rewrite elem_of_app, list_elem_of_fmap, sublist_cons_r, IH.
      setoid_rewrite IH. split.
      * intros [(t' & -> & ? & ?)|[? ?]]; simpl; naive_solver.
      * intros [[?|(t' & -> & ?)] Hlen]; simpl in *; [naive_solver|].
        left. exists t'. split_and!; [done|done|lia].
Qed.

Lemma combinations_too_long l r : length l < r → combinations l r = [].
Proof.
  revert r. induction l as [|x l IH]; intros [|r] Hr; simpl in *; try lia; [done|].
  rewrite !IH by lia. done.
Qed.

Lemma elem_of_all_combinations l t :
  t ∈ seq 0 (length l + 1) ≫= combinations l ↔ t `sublist_of` l.
Proof.
  rewrite list_elem_of_bind. setoid_rewrite elem_of_combinations.
  setoid_rewrite elem_of_seq. split.
  - naive_solver.
  - intros Hsub. exists (length t). apply sublist_length in Hsub as Hlen.
    split_and!; [done|done|lia|lia].
Qed.

Lemma length_bind_app {B : Type} (f g : B → list (list A)) (k : list B) :
  length (k ≫= λ x, f x ++ g x) = length (k ≫= f) + length (k ≫= g).
Proof.
  induction k as [|x k IH]; [done|].
  cbn [mbind list_bind]. rewrite !length_app.
  cbn [mbind list_bind] in IH. lia.
Qed.

Lemma length_bind_fmap {B : Type} (h : list A → list A) (f : B → list (list A))
    (k : list B) :
  length (k ≫= λ x, h <$> f x) = length (k ≫= f).
Proof.
  induction k as [|x k IH]; [done|].
  cbn [mbind list_bind]. rewrite !length_app, length_fmap.
  cbn [mbind list_bind] in IH. lia.
Qed.

Lemma bind_seq_S {B : Type} (f : nat → list B) n :
  seq 0 (S n) ≫= f = f 0 ++ (seq 0 n ≫= λ r, f (S r)).
Proof.
  cbn [seq]. rewrite <- fmap_S_seq. cbn [mbind list_bind]. f_equal.
  generalize (seq 0 n). intros k. induction k as [|x k IH]; [done|].
  cbn [fmap list_fmap mbind list_bind]. by f_equal.
Qed.

(** Summed over all sizes, a list of [n] elements has [2 ^ n] combinations. *)
Lemma length_all_combinations l n :
  length l < n → length (seq 0 n ≫= combinations l) = 2 ^ length l.
Proof.
  revert n. induction l as [|x l IH]; intros [|n] Hn; simpl in Hn; try lia.
  - rewrite bind_seq_S. cbn [combinations app length].
    replace (seq 0 n ≫= λ r, combinations [] (S r)) with (@nil (list A)); [done|].
    generalize (seq 0 n). intros k. by induction k.
  - rewrite bind_seq_S, combinations_0. cbn [app length combinations].
    rewrite (length_bind_app (λ r, cons x <$> combinations l r)
                             (λ r, combinations l (S r))).
    rewrite length_bind_fmap, IH by lia.
    assert (length (seq 0 (S n) ≫= combinations l) = 2 ^ length l) as Hall
      by (apply IH; lia).
    rewrite bind_seq_S, combinations_0 in Hall. cbn [app length] in Hall.
    rewrite Nat.pow_succ_r'. lia.
Qed.

Lemma NoDup_combinations l r : NoDup l → NoDup (combinations l r).
Proof.
  intros Hl. revert r. induction Hl as [|x l Hx Hl IH]; intros [|r]; simpl;
    try apply NoDup_singleton; [apply NoDup_nil_2|].
  apply NoDup_app. split_and!.
  - apply NoDup_fmap_2; [|apply IH]. by intros ?? [=].
  - intros t (t' & -> & _)%list_elem_of_fmap [Hsub _]%elem_of_combinations.
    apply Hx. eapply elem_of_sublist; [|done]. left.
  - apply IH.
Qed.

Lemma NoDup_all_combinations l n : NoDup l → NoDup (seq 0 n ≫= combinations l).
Proof.
  intros Hl. generalize 0 as a. induction n as [|n IH]; intros a; cbn [seq mbind list_bind].
  - apply NoDup_nil_2.
  - apply NoDup_app. split_and!; [by apply NoDup_combinations| |apply IH].
    intros t [_ Ha]%elem_of_combinations
      (r & [_ Hr]%elem_of_combinations & Hseq%elem_of_seq)%list_elem_of_bind.
    lia.
Qed.

Lemma filter_ext_elem_of (P Q : A → Prop) `{∀ x, Decision (P x)} `{∀ x, Decision (Q x)} l :
  (∀ x, x ∈ l → P x ↔ Q x) → filter P l = filter Q l.
Proof.
  induction l as [|x l IH]; intros HPQ; [done|].
  rewrite !filter_cons.
  rewrite IH by (intros y Hy; apply HPQ; by right).
  destruct (decide (P x)) as [HP|HP], (decide (Q x)) as [HQ|HQ]; try done;
    exfalso; apply (HPQ x) in HP || apply (HPQ x) in HQ; done || left.
Qed.

(** A subsequence of a duplicate-free list is determined by its elements. *)
Lemma sublist_NoDup_filter `{EqDecision A} l t :
  NoDup l → t `sublist_of` l → filter (λ x, x ∈ t) l = t.
Proof.
  intros Hl Hsub. induction Hsub as [|x t l Hsub IH|x t l Hsub IH].
  - done.
  - apply NoDup_cons in Hl as [Hx Hl].
    rewrite filter_cons_True by left. f_equal.
    transitivity (filter (λ y, y ∈ t) l); [|by apply IH]. apply filter_ext_elem_of.
    intros y Hy. rewrite elem_of_cons. split; [|auto]. intros [->|?]; done.
  - apply NoDup_cons in Hl as [Hx Hl].
    rewrite filter_cons_False; [auto|].
    intros Hin. apply Hx. by eapply elem_of_sublist.
Qed.
End Combinations.

(** ** Loops that cannot fail *)

Lemma mapM_Ok_exists {A B : Type} (f : A → result B) (l : list A) :
  (∀ x, x ∈ l → ∃ y, f x = Ok y) → ∃ k, mapM f l = Ok k.
Proof.
  induction l as [|x l IH]; intros Hf; simpl; [by eexists|].
  destruct (Hf x) as [y ->]; [left|]. simpl.
  destruct IH as [k ->]; [|by eexists].
  intros z Hz. apply Hf. by right.
Qed.

Lemma mapM_Ok_Forall2 {A B : Type} (R : A → B → Prop) (f : A → result B) (l : list A) :
  (∀ x, x ∈ l → ∃ y, f x = Ok y ∧ R x y) →
  ∃ k, mapM f l = Ok k ∧ Forall2 R l k.
Proof.
  induction l as [|x l IH]; intros Hf; simpl; [by eexists|].
  destruct (Hf x) as (y & -> & HR); [left|]. simpl.
  destruct IH as (k & -> & Hk); [|simpl; eexists; split; [done|by constructor]].
  intros z Hz. apply Hf. by right.
Qed.

Lemma any_of_Ok {A : Type} (f : A → result bool) (g : A → bool) (l : list A) :
  (∀ x, x ∈ l → f x = Ok (g x)) → any_of f l = Ok (existsb g l).
Proof.
  induction l as [|x l IH]; intros Hf; simpl; [done|].
  rewrite Hf by left. simpl. destruct (g x); [done|].
  apply IH. intros y Hy. apply Hf. by right.
Qed.

Lemma person_probability_Ok people one_gene two_genes have_trait n :
  n ∈ keys people →
  ∃ x, person_probability people one_gene two_genes have_trait n = Ok x.
Proof.
  intros [p Hp]%dict_get_in_keys. unfold person_probability.
  pose proof (get_gene_count_le (Some n) one_gene two_genes) as Hle.
  rewrite (trait_probability_spec _ _ Hle).
  destruct (decide (mother p = None ∧ father p = None)) as [[Hm Hf]|Hparent].
  - rewrite (gene_probability_founder _ _ _ _ p) by done.
    rewrite (founder_prior_spec _ Hle). simpl. eauto.
  - rewrite (gene_probability_child _ _ _ _ p); [simpl; eauto|done|].
    destruct (mother p), (father p);
      first [left; discriminate | right; discriminate | tauto].
Qed.

Lemma joint_probability_Ok people one_gene two_genes have_trait :
  ∃ p, joint_probability people one_gene two_genes have_trait = Ok p.
Proof.
  unfold joint_probability.
  destruct (mapM_Ok_exists (person_probability people one_gene two_genes have_trait)
              (keys people)) as [k ->]; [|simpl; eauto].
  intros n Hn. by apply person_probability_Ok.
Qed.

(** ** [update] *)

Lemma well_shaped_gene d k : well_shaped d → k ≤ 2 → ∃ v, dict_get (Dist.gene d) k = Ok v.
Proof.
  intros [Hg _] Hk. apply dict_get_in_keys. rewrite Hg.
  destruct k as [|[|[|k]]]; [set_solver..|lia].
Qed.

Lemma well_shaped_trait d k : well_shaped d → ∃ v, dict_get (Dist.trait d) k = Ok v.
Proof.
  intros [_ Ht]. apply dict_get_in_keys. rewrite Ht. destruct k; set_solver.
Qed.

Lemma dict_get_set {K V : Type} `{EqDecision K} (d : dict K V) (k k' : K) (v v' : V) :
  dict_get d k' = Ok v' →
  dict_get (dict_set d k v) k' = Ok (if decide (k' = k) then v else v').
Proof.
  intros Hk'. destruct (decide (k' = k)) as [->|Hne].
  - apply dict_get_set_eq.
  - by rewrite dict_get_set_ne.
Qed.

Lemma update_item one_gene two_genes have_trait p (item : string * Dist.t) :
  well_shaped item.2 →
  ∃ item',
    (let person := item.1 in
     let gene_count := get_gene_count (Some person) one_gene two_genes in
     let trait := bool_decide (person ∈ have_trait) in
     g ← dict_add PrimFloat.add (Dist.gene item.2) gene_count p;
     t ← dict_add PrimFloat.add (Dist.trait item.2) trait p;
     mret (person, {| Dist.gene := g; Dist.trait := t |})) = Ok item'
    ∧ updated one_gene two_genes have_trait p item item'.
Proof.
  intros Hshape. cbv zeta.
  destruct (well_shaped_gene _ (get_gene_count (Some item.1) one_gene two_genes) Hshape
              (get_gene_count_le _ _ _)) as [vg Hvg].
  destruct (well_shaped_trait _ (bool_decide (item.1 ∈ have_trait)) Hshape) as [vt Hvt].
  rewrite (dict_add_Ok _ _ _ _ _ Hvg), (dict_add_Ok _ _ _ _ _ Hvt). simpl.
  eexists. split; [done|].
  destruct Hshape as [Hg Ht].
  split_and!; simpl.
  - done.
  - split; simpl; rewrite keys_dict_set_in; try done.
    + rewrite Hg. pose proof (get_gene_count_le (Some item.1) one_gene two_genes).
      destruct (get_gene_count _ _ _) as [|[|[|k]]]; [set_solver..|lia].
    + rewrite Ht. destruct (bool_decide _); set_solver.
  - intros k v Hk. rewrite (dict_get_set _ _ _ _ _ Hk).
    destruct (decide _) as [->|]; [|done]. congruence.
  - intros k v Hk. rewrite (dict_get_set _ _ _ _ _ Hk).
    destruct (decide _) as [->|]; [|done]. congruence.
Qed.

Lemma update_spec probabilities one_gene two_genes have_trait p :
  Forall (λ item, well_shaped item.2) probabilities →
  ∃ probabilities',
    update probabilities one_gene two_genes have_trait p = Ok probabilities'
    ∧ Forall2 (updated one_gene two_genes have_trait p) probabilities probabilities'.
Proof.
  intros Hshape. unfold update. apply mapM_Ok_Forall2.
  intros item Hitem. apply update_item.
  by eapply Forall_forall in Hshape.
Qed.

(** ** [load_data] *)

Lemma load_data_snoc rows r :
  load_data (rows ++ [r]) = dict_set (load_data rows) (row_name r) (person_of_row r).
Proof. unfold load_data. by rewrite foldl_snoc. Qed.

Lemma load_data_lookup_last rows1 r rows2 :
  Forall (λ r', row_name r' ≠ row_name r) rows2 →
  dict_get (load_data (rows1 ++ r :: rows2)) (row_name r) = Ok (person_of_row r).
Proof.
  induction rows2 as [|r' rows2 IH] using rev_ind; intros Hlater.
  - rewrite (load_data_snoc rows1 r). apply dict_get_set_eq.
  - apply Forall_app in Hlater as [Hlater [Hr' _]%Forall_cons].
    replace (rows1 ++ r :: rows2 ++ [r']) with ((rows1 ++ r :: rows2) ++ [r'])
      by (by rewrite <- app_assoc).
    rewrite load_data_snoc, dict_get_set_ne by done. auto.
Qed.

Lemma NoDup_keys_load_data rows : NoDup (keys (load_data rows)).
Proof.
  induction rows as [|r rows IH] using rev_ind; [apply NoDup_nil_2|].
  rewrite load_data_snoc. by apply NoDup_keys_dict_set.
Qed.

Lemma joint_probability_spec people one_gene two_genes have_trait :
  well_formed people = true →
  joint_probability people one_gene two_genes have_trait
  = Ok (Spec.joint one_gene two_genes have_trait people).
Proof.
  intros Hwf. unfold joint_probability, keys.
  by rewrite (mapM_person_probability _ _ _ _ people Hwf).
Qed.

Lemma update_single n d one_gene two_genes have_trait p :
  update [(n, d)] one_gene two_genes have_trait p
  = (g ← dict_add PrimFloat.add (Dist.gene d) (get_gene_count (Some n) one_gene two_genes) p;
     t ← dict_add PrimFloat.add (Dist.trait d) (bool_decide (n ∈ have_trait)) p;
     mret [(n, {| Dist.gene := g; Dist.trait := t |})]).
Proof.
  unfold update. cbn [mapM fst snd].
  destruct (dict_add _ (Dist.gene d) _ _) as [g|]; [|done]. cbn [mbind result_bind].
  destruct (dict_add _ (Dist.trait d) _ _) as [t|]; done.
Qed.

(** Settles every test [n ∈ X] in the goal that [set_solver] can settle. *)
Ltac decide_membership n :=
  repeat match goal with
         | |- context [@bool_decide (n ∈ ?X) ?d] =>
             first [ rewrite (@bool_decide_eq_true_2 (n ∈ X) d) by set_solver
                   | rewrite (@bool_decide_eq_false_2 (n ∈ X) d) by set_solver ]
         end.

(** ** The engine, for every order of iteration over sets *)

Section EngineFacts.
Variable iter_set : gset string → list string.
Hypothesis iter_set_perm : ∀ s, iter_set s ≡ₚ elements s.

Lemma NoDup_iter_set s : NoDup (iter_set s).
Proof using iter_set_perm. rewrite iter_set_perm. apply NoDup_elements. Qed.

Lemma elem_of_iter_set s x : x ∈ iter_set s ↔ x ∈ s.
Proof using iter_set_perm. rewrite iter_set_perm. apply elem_of_elements. Qed.

Lemma length_iter_set s : length (iter_set s) = size s.
Proof using iter_set_perm. by rewrite iter_set_perm. Qed.

(** *** [powerset] *)

Lemma elem_of_powerset s X : X ∈ powerset iter_set s ↔ X ⊆ s.
Proof using iter_set_perm.
  unfold powerset. rewrite list_elem_of_fmap.
  setoid_rewrite elem_of_all_combinations. split.
  - intros (t & -> & Hsub) x Hx%elem_of_list_to_set.
    eapply elem_of_iter_set, elem_of_sublist; done.
  - intros HX. exists (filter (λ x, x ∈ X) (iter_set s)). split.
    + apply set_eq. intros x.
      rewrite elem_of_list_to_set, list_elem_of_filter, elem_of_iter_set. set_solver.
    + apply sublist_filter.
Qed.

Lemma length_powerset s : length (powerset iter_set s) = 2 ^ size s.
Proof using iter_set_perm.
  unfold powerset. rewrite length_fmap, length_all_combinations by lia.
  by rewrite length_iter_set.
Qed.

Lemma NoDup_powerset s : NoDup (powerset iter_set s).
Proof using iter_set_perm.
  unfold powerset. apply NoDup_fmap_2_strong.
  - intros t1 t2 Ht1%elem_of_all_combinations Ht2%elem_of_all_combinations Heq.
    rewrite <- (sublist_NoDup_filter _ _ (NoDup_iter_set s) Ht1).
    rewrite <- (sublist_NoDup_filter _ _ (NoDup_iter_set s) Ht2).
    apply filter_ext_elem_of. intros x _.
    by rewrite <- !(elem_of_list_to_set (C:=gset string)), Heq.
  - apply NoDup_all_combinations, NoDup_iter_set.
Qed.

(** C7: [powerset] returns the [2 ^ n] subsets of a set of [n] names, each
    once; and the pairs met by the two nested loops over [one_gene] and
    [two_genes] are exactly the pairs of disjoint subsets of the names. *)
Theorem powerset_enumerates_partitions (names : gset string) :
  length (powerset iter_set names) = 2 ^ size names
  ∧ NoDup (powerset iter_set names)
  ∧ (∀ X, X ∈ powerset iter_set names ↔ X ⊆ names)
  ∧ (∀ one_gene two_genes,
       one_gene ∈ powerset iter_set names
       ∧ two_genes ∈ powerset iter_set (names ∖ one_gene)
       ↔ one_gene ⊆ names ∧ two_genes ⊆ names ∧ one_gene ∩ two_genes = ∅).
Proof using iter_set_perm.
  split_and!.
  - apply length_powerset.
  - apply NoDup_powerset.
  - apply elem_of_powerset.
  - intros one_gene two_genes. rewrite !elem_of_powerset. set_solver.
Qed.

(** *** The evidence filter *)

Lemma fails_evidence_Ok people have_trait :
  ∃ b, fails_evidence iter_set people (list_to_set (keys people)) have_trait = Ok b
       ∧ (b = false → ∀ n p, dict_get people n = Ok p →
            trait p = None ∨ trait p = Some (bool_decide (n ∈ have_trait)))
       ∧ (b = true → ∃ n p, dict_get people n = Ok p ∧ trait p ≠ None
            ∧ trait p ≠ Some (bool_decide (n ∈ have_trait))).
Proof using iter_set_perm.
  set (g := λ n, match dict_get people n with
                 | Ok p => bool_decide (trait p ≠ None)
                           && bool_decide (trait p ≠ Some (bool_decide (n ∈ have_trait)))
                 | Raise _ => false
                 end).
  exists (existsb g (iter_set (list_to_set (keys people)))). split_and!.
  - unfold fails_evidence. apply any_of_Ok.
    intros n [p Hp]%elem_of_iter_set%elem_of_list_to_set%dict_get_in_keys.
    unfold g. by rewrite Hp.
  - intros Hfalse n p Hp.
    assert (g n = false) as Hg.
    { destruct (g n) eqn:Hgn; [|done]. rewrite <- Hfalse. symmetry.
      apply existsb_exists. exists n. split; [|done].
      apply list_elem_of_In, elem_of_iter_set, elem_of_list_to_set.
      apply dict_get_elem_of in Hp. apply list_elem_of_fmap. by exists (n, p). }
    unfold g in Hg. rewrite Hp in Hg.
    apply andb_false_iff in Hg as [Hg|Hg]; apply bool_decide_eq_false in Hg.
    + left. by destruct (trait p); [exfalso; apply Hg|].
    + right. by apply dec_stable.
  - intros (n & _ & Hg)%existsb_exists. unfold g in Hg.
    destruct (dict_get people n) as [p|] eqn:Hp; [|done].
    apply andb_prop in Hg as [H1%bool_decide_eq_true H2%bool_decide_eq_true].
    by exists n, p.
Qed.

(** *** The accumulation loop *)

Lemma accumulate_invariant (Q : string * Dist.t → Prop) people :
  (∀ n, Q (n, {| Dist.gene := [(2, 0%float); (1, 0%float); (0, 0%float)];
                 Dist.trait := [(true, 0%float); (false, 0%float)] |})) →
  (∀ one_gene two_genes have_trait p item item',
     fails_evidence iter_set people (list_to_set (keys people)) have_trait = Ok false →
     updated one_gene two_genes have_trait p item item' → Q item → Q item') →
  ∃ probabilities,
    accumulate iter_set people = Ok probabilities
    ∧ probabilities.*1 = keys people
    ∧ Forall (λ item, well_shaped item.2 ∧ Q item) probabilities.
Proof using iter_set_perm.
  intros Hinit Hstep. unfold accumulate.
  set (names := list_to_set (keys people) : gset string).
  set (Inv := λ probabilities : dict string Dist.t,
         probabilities.*1 = keys people
         ∧ Forall (λ item, well_shaped item.2 ∧ Q item) probabilities).
  assert (∀ one_gene two_genes have_trait p probabilities,
            fails_evidence iter_set people names have_trait = Ok false →
            Inv probabilities →
            ∃ probabilities',
              update probabilities one_gene two_genes have_trait p = Ok probabilities'
              ∧ Inv probabilities') as Hupdate.
  { intros one_gene two_genes have_trait p probabilities Hev [Hkeys Hall].
    destruct (update_spec probabilities one_gene two_genes have_trait p)
      as (probabilities' & -> & Hupd).
    { eapply Forall_impl; [done|]. by intros ? [? ?]. }
    eexists. split; [done|]. split.
    - rewrite <- Hkeys. clear -Hupd.
      induction Hupd as [|item item' ?? [Hfst _] _ IH]; [done|].
      cbn [fmap list_fmap]. by rewrite Hfst, IH.
    - clear Hkeys. induction Hupd as [|item item' ???? IH];
        [constructor|]. apply Forall_cons in Hall as [[? ?] ?].
      constructor; [|auto]. split; [apply H|]. eapply Hstep; done. }
  apply (for_each_inv Inv).
  { split.
    - rewrite <- list_fmap_compose. apply list_fmap_id.
    - apply Forall_fmap, Forall_forall. intros n _. split; [done|apply Hinit]. }
  intros probabilities have_trait _ Hinv.
  destruct (fails_evidence_Ok people have_trait) as (b & Hb & _).
  fold names in Hb. rewrite Hb. simpl. destruct b; [eauto|].
  apply (for_each_inv Inv); [done|]. intros probabilities1 one_gene _ Hinv1.
  apply (for_each_inv Inv); [done|]. intros probabilities2 two_genes _ Hinv2.
  destruct (joint_probability_Ok people one_gene two_genes have_trait) as [p ->].
  simpl. by apply Hupdate.
Qed.
Lemma accumulate_Ok people :
  ∃ probabilities,
    accumulate iter_set people = Ok probabilities
    ∧ probabilities.*1 = keys people
    ∧ Forall (λ item, well_shaped item.2) probabilities.
Proof using iter_set_perm.
  destruct (accumulate_invariant (λ _, True) people) as (probabilities & ? & ? & Hall);
    [done|done|].
  exists probabilities. split_and!; [done|done|].
  eapply Forall_impl; [done|]. by intros ? [? _].
Qed.

(** C6: when a person's trait is observed, every candidate [have_trait]
    whose membership for that person disagrees with the observation fails
    the evidence test, and the loop ends with the bucket of the opposite
    trait value still at its initial 0: no weight was ever added to it. *)
Theorem evidence_is_respected
    (people : dict string person) (p : person) (who : string) (b : bool) :
  dict_get people who = Ok p →
  trait p = Some b →
  (∀ have_trait,
     bool_decide (who ∈ have_trait) ≠ b →
     fails_evidence iter_set people (list_to_set (keys people)) have_trait = Ok true)
  ∧ ∃ probabilities d,
      accumulate iter_set people = Ok probabilities
      ∧ dict_get probabilities who = Ok d
      ∧ dict_get (Dist.trait d) (negb b) = Ok 0%float.
Proof using iter_set_perm.
  intros Hp Hb. split.
  - intros have_trait Hne.
    destruct (fails_evidence_Ok people have_trait) as ([] & Hev & Hfalse & _); [done|].
    destruct (Hfalse eq_refl who p Hp) as [?|?]; congruence.
  - destruct (accumulate_invariant
                (λ item, item.1 = who → dict_get (Dist.trait item.2) (negb b) = Ok 0%float)
                people) as (probabilities & Hacc & Hkeys & Hall).
    + intros n _. by destruct b.
    + intros one_gene two_genes have_trait x item item' Hev (Hfst & _ & _ & Htrait) HQ Hwho.
      rewrite Hfst in Hwho. rewrite (Htrait _ _ (HQ Hwho)).
      destruct (fails_evidence_Ok people have_trait) as (b' & Hev' & Hfalse & _).
      rewrite Hev in Hev'. injection Hev' as <-.
      destruct (Hfalse eq_refl who p Hp) as [?|Hobs]; [congruence|].
      rewrite Hwho, decide_False; [done|].
      rewrite Hb in Hobs. injection Hobs as <-. by destruct b.
    + destruct (dict_get_in_keys probabilities who) as [d Hd].
      { unfold keys. rewrite Hkeys. apply dict_get_elem_of in Hp.
        apply list_elem_of_fmap. by exists (who, p). }
      exists probabilities, d. split_and!; [done|done|].
      apply dict_get_elem_of in Hd.
      eapply Forall_forall in Hall as [_ HQ]; [|done]. by apply HQ.
Qed.

(** *** [main] *)

Lemma main_raises rows : main iter_set rows = Raise NotImplementedError.
Proof using iter_set_perm.
  unfold main. by destruct (accumulate_Ok (load_data rows)) as (probabilities & -> & _).
Qed.

(** C8, as the code has it: [load_data] checks nothing and never fails.  The
    record kept for a name is that of the last row with this name, with the
    parents' names stored as given, whether or not they have a row; names
    stay unique, and the accumulation loop then runs to its end. *)
Theorem load_data_never_rejects (rows1 rows2 : list csv_row) (r : csv_row) :
  Forall (λ r', row_name r' ≠ row_name r) rows2 →
  let people := load_data (rows1 ++ r :: rows2) in
  dict_get people (row_name r) = Ok (person_of_row r)
  ∧ mother (person_of_row r) = or_None (row_mother r)
  ∧ father (person_of_row r) = or_None (row_father r)
  ∧ NoDup (keys people)
  ∧ ∃ probabilities, accumulate iter_set people = Ok probabilities.
Proof using iter_set_perm.
  intros Hlater people. split_and!; [|done|done| |].
  - by apply load_data_lookup_last.
  - apply NoDup_keys_load_data.
  - destruct (accumulate_Ok people) as (probabilities & ? & _). eauto.
Qed.

(** *** A single founder *)

Lemma iter_set_empty : iter_set ∅ = [].
Proof using iter_set_perm.
  apply Permutation_nil_r. by rewrite iter_set_perm, elements_empty.
Qed.

Lemma iter_set_singleton n s : s = {[n]} → iter_set s = [n].
Proof using iter_set_perm.
  intros ->. apply Permutation_singleton_r. by rewrite iter_set_perm, elements_singleton.
Qed.

Lemma powerset_empty s : s = ∅ → powerset iter_set s = [∅].
Proof using iter_set_perm. intros ->. unfold powerset. by rewrite iter_set_empty. Qed.

Lemma powerset_singleton n s : s = {[n]} → powerset iter_set s = [∅; {[n]}].
Proof using iter_set_perm.
  intros ->. unfold powerset. rewrite (iter_set_singleton n) by done.
  cbn. by rewrite (right_id_L ∅ (∪)).
Qed.

Lemma well_formed_single_founder n :
  well_formed [(n, Person n None None None)] = true.
Proof.
  unfold well_formed. rewrite bool_decide_true by apply NoDup_singleton. reflexivity.
Qed.

(** C2: for a single founder with no observed trait the loop accumulates
    the weights 0.96, 0.030000000000000002 and 0.01 for the gene counts and
    0.0329 and 0.96709999999999985 for the trait; [main] then passes them to
    [normalize] and ends with [NotImplementedError] instead of returning
    them. *)
Theorem single_founder_run (n : string) :
  accumulate iter_set (load_data (single_founder n))
  = Ok [(n, {| Dist.gene := [(2, 0.01%float); (1, 0.030000000000000002%float);
                             (0, 0.96%float)];
               Dist.trait := [(true, 0.0329%float); (false, 0.96709999999999985%float)] |})]
  ∧ main iter_set (single_founder n) = Raise NotImplementedError.
Proof using iter_set_perm.
  split; [|apply main_raises].
  change (load_data (single_founder n)) with [(n, Person n None None None)].
  assert (∀ have_trait,
            fails_evidence iter_set [(n, Person n None None None)] (list_to_set [n])
              have_trait = Ok false) as Hev.
  { intros have_trait. unfold fails_evidence.
    rewrite (iter_set_singleton n) by set_solver.
    cbn [any_of dict_get]. rewrite decide_True by done.
    cbn [mbind result_bind mret result_ret trait].
    rewrite bool_decide_false by (intros H; by apply H). reflexivity. }
  unfold accumulate. cbn [keys fmap list_fmap fst].
  rewrite (powerset_singleton n (list_to_set [n])) by set_solver.
  cbn [for_each]. rewrite !Hev. cbn [mbind result_bind].
  rewrite (powerset_singleton n (list_to_set [n] ∖ ∅)) by set_solver.
  rewrite (powerset_empty (list_to_set [n] ∖ {[n]})) by set_solver.
  cbn [for_each mbind result_bind].
  rewrite !joint_probability_spec by apply well_formed_single_founder.
  unfold Spec.joint, Spec.factor, Spec.gene_probability, Spec.copies.
  cbn [fst snd fmap list_fmap foldl mother father].
  decide_membership n.
  repeat (cbn [mbind result_bind mret result_ret];
          rewrite update_single; unfold get_gene_count, py_in; decide_membership n;
          cbn [Dist.gene Dist.trait];
          repeat match goal with
                 | |- context [dict_add ?add ?d ?k ?p] =>
                     let r := eval vm_compute in (dict_add add d k p) in
                     change (dict_add add d k p) with r
                 end).
  reflexivity.
Qed.
End EngineFacts.

(** ** Runs of the engine *)

Lemma elements_perm (s : gset string) : elements s ≡ₚ elements s.
Proof. reflexivity. Qed.



(** ** Instances *)

Lemma single_founder_run_witness :
  main elements (single_founder "Harry") = Raise NotImplementedError.
Proof. apply (single_founder_run elements elements_perm "Harry"). Defined.

Lemma evidence_is_respected_witness :
  ∃ probabilities d,
    accumulate elements (load_data family0) = Ok probabilities
    ∧ dict_get probabilities "James" = Ok d
    ∧ dict_get (Dist.trait d) false = Ok 0%float.
Proof.
  apply (evidence_is_respected elements elements_perm (load_data family0)
           (Person "James" None None (Some true)) "James" true).
  - vm_compute. reflexivity.
  - reflexivity.
Defined.

Lemma powerset_enumerates_partitions_witness :
  length (powerset elements {["Harry"; "James"; "Lily"]}) = 8.
Proof.
  rewrite (proj1 (powerset_enumerates_partitions elements elements_perm
                    {["Harry"; "James"; "Lily"]})).
  vm_compute. reflexivity.
Defined.

Lemma load_data_never_rejects_witness :
  dict_get (load_data duplicate_rows) "Harry"
  = Ok (Person "Harry" None None (Some false)).
Proof.
  apply (load_data_never_rejects elements elements_perm
           [CsvRow "Harry" "" "" "1"] [] (CsvRow "Harry" "" "" "0")).
  constructor.
Defined.

(** C8 fails on the code: a file whose only row names two parents that have
    no row, and a file with two rows for one name, are both loaded without
    any error, and the accumulation loop runs on what was loaded. *)
Lemma load_data_accepts_invalid_files :
  load_data orphan_rows
  = [("Harry", Person "Harry" (Some "Lily") (Some "James") None)]
  ∧ load_data duplicate_rows = [("Harry", Person "Harry" None None (Some false))]
  ∧ (∃ probabilities, accumulate elements (load_data orphan_rows) = Ok probabilities)
  ∧ (∃ probabilities, accumulate elements (load_data duplicate_rows) = Ok probabilities).
Proof.
  split_and!; [reflexivity|reflexivity| |]; eexists; vm_compute; reflexivity.
Qed.

(** * Further properties of the code *)

(** ** Signs of sums of binary64 numbers *)

Lemma binary_round_nonneg prec emax m e :
  sf_nonneg (binary_round prec emax false m e) = true.
Proof.
  unfold binary_round. destruct (shl_align _ _ _) as [mz ez].
  apply binary_round_aux_nonneg. lia.
Qed.

Lemma SFadd_nonneg prec emax x y :
  sf_nonneg x = true → sf_nonneg y = true → sf_nonneg (SFadd prec emax x y) = true.
Proof.
  destruct x as [[]|[]| |[] mx ex], y as [[]|[]| |[] my ey];
    cbn [sf_nonneg SFadd cond_Zopp Z.add binary_normalize];
    try discriminate; try reflexivity.
  intros _ _. apply binary_round_nonneg.
Qed.

Lemma add_nonneg (x y : float) :
  nonneg x = true → nonneg y = true → nonneg (x + y) = true.
Proof. unfold nonneg. rewrite add_spec. apply SFadd_nonneg. Qed.

Lemma leb_0_nonneg (x : float) : (0 <=? x)%float = true → nonneg x = true.
Proof.
  unfold nonneg. rewrite leb_spec.
  replace (Prim2SF 0) with (S754_zero false) by (vm_compute; reflexivity).
  destruct (Prim2SF x) as [|[]| |[]]; cbn; congruence.
Qed.

Lemma pos_finite_nonneg (x : float) : pos_finite x = true → nonneg x = true.
Proof. unfold pos_finite, nonneg. by destruct (Prim2SF x) as [|[]| |[]]. Qed.

(** ** [joint_probability] on arbitrary populations *)

Lemma factor_values_pos_finite (a b c : nat) (t : bool) :
  a ≤ 2 → b ≤ 2 → c ≤ 2 →
  pos_finite (Spec.founder_prior c * Spec.trait_probability c t) = true
  ∧ pos_finite (Spec.child_probability (_get_pass_probability a)
                  (_get_pass_probability b) c
                * Spec.trait_probability c t) = true.
Proof.
  intros Ha Hb Hc.
  destruct a as [|[|[|a]]], b as [|[|[|b]]], c as [|[|[|c]]], t; try lia;
    split; vm_compute; reflexivity.
Qed.

Lemma person_probability_pos people one_gene two_genes have_trait n :
  n ∈ keys people →
  ∃ x, person_probability people one_gene two_genes have_trait n = Ok x
       ∧ pos_finite x = true.
Proof.
  intros [p Hp]%dict_get_in_keys. unfold person_probability.
  pose proof (get_gene_count_le (Some n) one_gene two_genes) as Hle.
  pose proof (factor_values_pos_finite
                (get_gene_count (mother p) one_gene two_genes)
                (get_gene_count (father p) one_gene two_genes)
                (get_gene_count (Some n) one_gene two_genes)
                (bool_decide (n ∈ have_trait))
                (get_gene_count_le _ _ _) (get_gene_count_le _ _ _) Hle)
    as [Hfounder Hchild].
  rewrite (trait_probability_spec _ _ Hle).
  destruct (decide (mother p = None ∧ father p = None)) as [[Hm Hf]|Hparent].
  - rewrite (gene_probability_founder _ _ _ _ p) by done.
    rewrite (founder_prior_spec _ Hle). simpl. eauto.
  - rewrite (gene_probability_child _ _ _ _ p); [simpl; eauto|done|].
    destruct (mother p), (father p);
      first [left; discriminate | right; discriminate | tauto].
Qed.

Lemma joint_probability_nonneg people one_gene two_genes have_trait :
  ∃ p, joint_probability people one_gene two_genes have_trait = Ok p
       ∧ nonneg p = true.
Proof.
  unfold joint_probability.
  destruct (mapM_Ok_Forall2 (λ _ x, pos_finite x = true)
              (person_probability people one_gene two_genes have_trait) (keys people))
    as (k & -> & Hk).
  { intros n Hn. by apply person_probability_pos. }
  simpl. eexists. split; [done|].
  apply foldl_mul_nonneg; [vm_compute; reflexivity|].
  clear -Hk. induction Hk; constructor; auto.
Qed.

(** X1: whatever the population (parents without an entry of their own,
    a single recorded parent, any names) and whatever the three sets,
    [joint_probability] raises no exception and returns a number that is
    neither negative nor a NaN. *)
Theorem joint_probability_never_fails
    (people : dict string person) (one_gene two_genes have_trait : gset string) :
  ∃ p : float,
    joint_probability people one_gene two_genes have_trait = Ok p
    ∧ (0 <=? p)%float = true.
Proof.
  destruct (joint_probability_nonneg people one_gene two_genes have_trait)
    as (p & Hp & Hnonneg).
  exists p. split; [done|]. by apply nonneg_leb.
Qed.

(** ** Exceptions of [_get_gene_probability] *)

(** X2: [_get_gene_probability] raises [KeyError] for a name that is not in
    [people], and for a founder asked about a gene count outside 0, 1, 2;
    for a person with a recorded parent every count from 2 upwards is
    handled as 2 and gives the product of the two pass probabilities. *)
Theorem gene_probability_out_of_range
    (people : dict string person) (p : person) (who : string)
    (one_gene two_genes : gset string) (gene : nat) :
  (who ∉ keys people →
     _get_gene_probability one_gene two_genes people who gene = Raise KeyError)
  ∧ (dict_get people who = Ok p → 2 < gene →
       (mother p = None ∧ father p = None →
          _get_gene_probability one_gene two_genes people who gene = Raise KeyError)
       ∧ (mother p ≠ None ∨ father p ≠ None →
            _get_gene_probability one_gene two_genes people who gene
            = _get_gene_probability one_gene two_genes people who 2)).
Proof.
  split.
  - intros Hwho. unfold _get_gene_probability.
    rewrite (dict_get_not_in_keys people who) by done. reflexivity.
  - intros Hp Hgene. split.
    + intros [Hm Hf]. rewrite (gene_probability_founder _ _ _ _ p) by done.
      apply dict_get_not_in_keys. unfold keys, PROBS.gene. cbn [fmap list_fmap fst].
      rewrite !not_elem_of_cons. split_and!; try lia. apply not_elem_of_nil.
    + intros Hparent. rewrite !(gene_probability_child _ _ _ _ p) by done.
      by destruct gene as [|[|[|gene]]]; try lia.
Qed.

Lemma gene_probability_out_of_range_witness :
  _get_gene_probability ∅ ∅ (load_data family0) "Harry" 7
  = _get_gene_probability ∅ ∅ (load_data family0) "Harry" 2
  ∧ _get_gene_probability ∅ ∅ (load_data family0) "James" 7 = Raise KeyError
  ∧ _get_gene_probability ∅ ∅ (load_data family0) "Sirius" 1 = Raise KeyError.
Proof.
  split_and!.
  - apply (gene_probability_out_of_range (load_data family0)
             (Person "Harry" (Some "Lily") (Some "James") None) "Harry" ∅ ∅ 7);
      [vm_compute; reflexivity|lia|left; discriminate].
  - apply (gene_probability_out_of_range (load_data family0)
             (Person "James" None None (Some true)) "James" ∅ ∅ 7);
      [vm_compute; reflexivity|lia|done].
  - apply (proj1 (gene_probability_out_of_range (load_data family0)
                    (Person "James" None None (Some true)) "Sirius" ∅ ∅ 1)).
    change (keys (load_data family0)) with ["Harry"; "James"; "Lily"].
    intros Hin. repeat (apply elem_of_cons in Hin as [Hin|Hin]; [discriminate|]).
    by apply elem_of_nil in Hin.
Defined.

(** ** [update] *)

(** X3: when every person has the three gene buckets and the two trait
    buckets, [update] succeeds, keeps the people and their order, adds [p]
    to the gene bucket of each person's gene count and to the trait bucket
    of their membership in [have_trait], and leaves all other buckets as
    they were. *)
Theorem update_adds_to_matching_buckets
    (probabilities : dict string Dist.t) (one_gene two_genes have_trait : gset string)
    (p : float) :
  Forall (λ item, well_shaped item.2) probabilities →
  ∃ probabilities',
    update probabilities one_gene two_genes have_trait p = Ok probabilities'
    ∧ keys probabilities' = keys probabilities
    ∧ Forall2 (updated one_gene two_genes have_trait p) probabilities probabilities'.
Proof.
  intros Hshape.
  destruct (update_spec probabilities one_gene two_genes have_trait p Hshape)
    as (probabilities' & Hupdate & Hall).
  exists probabilities'. split_and!; [done| |done].
  clear -Hall. unfold keys.
  induction Hall as [|item item' ?? [Hfst _] _ IH]; [done|].
  cbn [fmap list_fmap]. by rewrite Hfst, IH.
Qed.

Lemma update_adds_to_matching_buckets_witness :
  update [("Harry", Dist.Make [(2, 0.25%float); (1, 0.5%float); (0, 0%float)]
                              [(true, 0.5%float); (false, 0.25%float)])]
         {["Harry"]} ∅ ∅ 0.125
  = Ok [("Harry", Dist.Make [(2, 0.25%float); (1, 0.625%float); (0, 0%float)]
                            [(true, 0.5%float); (false, 0.375%float)])].
Proof.
  destruct (update_adds_to_matching_buckets
              [("Harry", Dist.Make [(2, 0.25%float); (1, 0.5%float); (0, 0%float)]
                                   [(true, 0.5%float); (false, 0.25%float)])]
              {["Harry"]} ∅ ∅ 0.125) as (probabilities' & _ & _ & _).
  - repeat constructor.
  - vm_compute. reflexivity.
Defined.

Lemma dict_get_Raise {K V : Type} `{EqDecision K} (d : dict K V) (k : K) (e : exn) :
  dict_get d k = Raise e → e = KeyError ∧ k ∉ keys d.
Proof.
  intros Hget. destruct (decide (k ∈ keys d)) as [[v Hv]%dict_get_in_keys|Hk].
  - congruence.
  - rewrite (dict_get_not_in_keys _ _ Hk) in Hget. by injection Hget as <-.
Qed.

(** X4: [update] fails exactly when some person lacks the gene bucket of
    their gene count or the trait bucket of their membership, and the only
    exception it ever raises is [KeyError]. *)
Theorem update_fails_iff
    (probabilities : dict string Dist.t) (one_gene two_genes have_trait : gset string)
    (p : float) :
  (∀ e, update probabilities one_gene two_genes have_trait p = Raise e → e = KeyError)
  ∧ (update probabilities one_gene two_genes have_trait p = Raise KeyError
     ↔ ∃ item, item ∈ probabilities
         ∧ (get_gene_count (Some item.1) one_gene two_genes ∉ keys (Dist.gene item.2)
            ∨ bool_decide (item.1 ∈ have_trait) ∉ keys (Dist.trait item.2))).
Proof.
  unfold update.
  set (f := λ item : string * Dist.t, _).
  assert (∀ item,
            (∃ item', f item = Ok item')
            ∧ get_gene_count (Some item.1) one_gene two_genes ∈ keys (Dist.gene item.2)
            ∧ bool_decide (item.1 ∈ have_trait) ∈ keys (Dist.trait item.2)
            ∨ f item = Raise KeyError
              ∧ (get_gene_count (Some item.1) one_gene two_genes ∉ keys (Dist.gene item.2)
                 ∨ bool_decide (item.1 ∈ have_trait) ∉ keys (Dist.trait item.2)))
    as Hf.
  { intros item. unfold f, dict_add.
    destruct (dict_get (Dist.gene item.2) _) as [vg|e] eqn:Hg.
    - destruct (dict_get (Dist.trait item.2) _) as [vt|e] eqn:Ht.
      + left. split_and!; [by eexists| |].
        * apply dict_get_elem_of in Hg. apply list_elem_of_fmap. by eexists (_, _).
        * apply dict_get_elem_of in Ht. apply list_elem_of_fmap. by eexists (_, _).
      + apply dict_get_Raise in Ht as [-> ?]. right. auto.
    - apply dict_get_Raise in Hg as [-> ?]. right. auto. }
  clearbody f.
  induction probabilities as [|item probabilities [IHe IH]].
  - split; [done|]. split; [done|]. intros (? & []%elem_of_nil & _).
  - cbn [mapM]. destruct (Hf item) as [([item' ->] & Hg & Ht)|[-> Hmissing]].
    + cbn [mbind result_bind].
      destruct (mapM f probabilities) as [k|e]; cbn [mbind result_bind mret result_ret].
      * split; [done|]. split; [done|].
        intros (item0 & [->|Hin]%elem_of_cons & Hmissing); [tauto|].
        assert (Ok k = Raise KeyError) as [=]. apply IH. eauto.
      * split; [intros e' [= <-]; by apply IHe|].
        rewrite (IHe e eq_refl). split.
        -- intros _. destruct (proj1 IH) as (item0 & ? & ?); [by rewrite (IHe e)|].
           exists item0. split; [by right|done].
        -- done.
    + cbn [mbind result_bind]. split; [by intros e [= <-]|].
      split; [|done]. intros _. exists item. split; [left|done].
Qed.

(** ** [load_data] *)

Lemma elem_of_dict_set {K V : Type} `{EqDecision K} (d : dict K V) (k k' : K) (v v' : V) :
  (k, v) ∈ dict_set d k' v' → (k, v) = (k', v') ∨ (k, v) ∈ d.
Proof.
  induction d as [|[k0 v0] d IH]; simpl.
  - intros ->%list_elem_of_singleton. by left.
  - case_decide as Hk; subst.
    + intros [->|?]%elem_of_cons; [by left|]. right. by right.
    + intros [->|?]%elem_of_cons; [right; left|].
      destruct IH as [?|?]; [done|by left|]. right. by right.
Qed.

Lemma keys_dict_set {K V : Type} `{EqDecision K} (d : dict K V) (k : K) (v : V) :
  keys (dict_set d k v) = if decide (k ∈ keys d) then keys d else keys d ++ [k].
Proof.
  case_decide; [by apply keys_dict_set_in|by apply keys_dict_set_notin].
Qed.

Lemma dict_set_notin {K V : Type} `{EqDecision K} (d : dict K V) (k : K) (v : V) :
  k ∉ keys d → dict_set d k v = d ++ [(k, v)].
Proof.
  unfold keys. induction d as [|[k' v'] d IH]; simpl; [done|].
  intros [? ?]%not_elem_of_cons. rewrite decide_False by done. f_equal. auto.
Qed.

(** X5: the names of the loaded population are the names of the rows,
    each once, in the order of their first appearance in the file. *)
Theorem load_data_keys_first_occurrence (rows : list csv_row) :
  keys (load_data rows) = reverse (remove_dups (reverse (row_name <$> rows)))
  ∧ NoDup (keys (load_data rows))
  ∧ ∀ n, n ∈ keys (load_data rows) ↔ n ∈ (row_name <$> rows).
Proof.
  assert (keys (load_data rows) = reverse (remove_dups (reverse (row_name <$> rows))))
    as Hkeys.
  { induction rows as [|r rows IH] using rev_ind; [done|].
    rewrite load_data_snoc, keys_dict_set, fmap_app, reverse_app. cbn [fmap list_fmap].
    rewrite reverse_singleton. cbn [app remove_dups].
    assert (row_name r ∈ keys (load_data rows)
            ↔ row_name r ∈ reverse (row_name <$> rows)) as Hin
      by (by rewrite IH, !elem_of_reverse, elem_of_remove_dups, elem_of_reverse).
    destruct (decide_rel elem_of (row_name r) (reverse (row_name <$> rows))) as [Hr|Hr].
    - rewrite decide_True by (by apply Hin). done.
    - rewrite decide_False by (by rewrite Hin). by rewrite reverse_cons, IH. }
  split_and!; [done|apply NoDup_keys_load_data|].
  intros n. by rewrite Hkeys, elem_of_reverse, elem_of_remove_dups, elem_of_reverse.
Qed.

(** X6: every record [load_data] stores comes from a row of the file that
    has the record's key as its name; in particular the [name] field of a
    record is its key. *)
Theorem load_data_records (rows : list csv_row) (n : string) (p : person) :
  (n, p) ∈ load_data rows →
  name p = n ∧ ∃ r, r ∈ rows ∧ row_name r = n ∧ p = person_of_row r.
Proof.
  revert n p. induction rows as [|r rows IH] using rev_ind; intros n p.
  - by intros ?%elem_of_nil.
  - rewrite load_data_snoc. intros [[= -> ->]|Hin]%elem_of_dict_set.
    + split; [done|]. exists r. split; [|done]. apply elem_of_app. right. left.
    + destruct (IH n p Hin) as (? & r' & ? & ? & ?). split; [done|].
      exists r'. split; [|done]. apply elem_of_app. by left.
Qed.

Lemma load_data_records_witness :
  name (Person "James" None None (Some true)) = "James"
  ∧ ∃ r, r ∈ family0 ∧ row_name r = "James"
         ∧ Person "James" None None (Some true) = person_of_row r.
Proof.
  apply (load_data_records family0 "James" (Person "James" None None (Some true))).
  right. left.
Defined.

Lemma load_data_distinct_names rows :
  NoDup (row_name <$> rows) →
  load_data rows = (λ r, (row_name r, person_of_row r)) <$> rows.
Proof.
  induction rows as [|r rows IH] using rev_ind; intros Hnames; [done|].
  rewrite fmap_app in Hnames. apply NoDup_app in Hnames as (Hrows & Hr & _).
  rewrite load_data_snoc, fmap_app, IH by done. apply dict_set_notin.
  unfold keys. rewrite <- list_fmap_compose. intros Hin. apply (Hr _ Hin). left.
Qed.

Lemma load_data_of_well_formed_file (rows : list csv_row) :
  file_well_formed rows →
  load_data rows = (λ r, (row_name r, person_of_row r)) <$> rows
  ∧ well_formed (load_data rows) = true.
Proof.
  intros [Hnames Hparents].
  pose proof (load_data_distinct_names rows Hnames) as Hload.
  split; [done|]. unfold well_formed.
  assert (keys (load_data rows) = row_name <$> rows) as Hkeys
    by (unfold keys; by rewrite Hload, <- list_fmap_compose).
  rewrite Hkeys, bool_decide_true by done. cbn [andb].
  apply forallb_forall. intros [n p] Hin%list_elem_of_In.
  rewrite Hload in Hin. apply list_elem_of_fmap in Hin as (r & [= -> ->] & Hr).
  cbn [snd person_of_row mother father]. unfold or_None.
  destruct (Hparents r Hr) as [[-> ->]|(Hm & Hf & Hmin & Hfin)].
  - reflexivity.
  - rewrite !decide_False by done. by rewrite !bool_decide_true.
Qed.

(** X7: on a file that meets the condition of the docstring (unique names,
    parents both blank or both naming a row) [load_data] keeps one record
    per row, in file order, and the population is well formed. *)
Theorem load_data_well_formed (rows : list csv_row) :
  file_well_formed rows →
  load_data rows = (λ r, (row_name r, person_of_row r)) <$> rows
  ∧ well_formed (load_data rows) = true.
Proof. apply load_data_of_well_formed_file. Qed.

Lemma family0_well_formed : file_well_formed family0.
Proof.
  split.
  - cbn. repeat constructor; set_solver.
  - intros r Hr. repeat (apply elem_of_cons in Hr as [->|Hr]).
    + right. cbn. split_and!; [done|done|set_solver|set_solver].
    + by left.
    + by left.
    + by apply elem_of_nil in Hr.
Defined.

Lemma load_data_well_formed_witness : well_formed (load_data family0) = true.
Proof. apply (load_data_well_formed family0), family0_well_formed. Defined.

(** X8: for a file that meets the condition of the docstring, the joint
    probability of the loaded population is the product, over the rows in
    file order, of each person's gene-count probability times their trait
    probability. *)
Theorem joint_probability_of_loaded_file
    (rows : list csv_row) (one_gene two_genes have_trait : gset string) :
  file_well_formed rows →
  joint_probability (load_data rows) one_gene two_genes have_trait
  = Ok (Spec.joint one_gene two_genes have_trait
          ((λ r, (row_name r, person_of_row r)) <$> rows)).
Proof.
  intros [Hload Hwf]%load_data_of_well_formed_file.
  rewrite joint_probability_spec by done. by rewrite Hload.
Qed.

Lemma joint_probability_of_loaded_file_witness :
  joint_probability (load_data family0) {["Harry"]} {["James"]} {["James"]}
  = Ok 0.0026643247488%float.
Proof.
  rewrite (joint_probability_of_loaded_file family0 _ _ _ family0_well_formed).
  vm_compute. reflexivity.
Defined.

(** ** The model parameters *)

(** X9: the tables of [PROBS] are probability distributions in binary64:
    the prior of the gene count adds up to exactly 1, and so do, for every
    gene count 0, 1, 2, the probabilities of having and not having the
    trait; the tables have no entry for any other gene count. *)
Theorem PROBS_tables_are_distributions :
  foldl PrimFloat.add 0%float PROBS.gene.*2 = 1%float
  ∧ (∀ c, c ≤ 2 →
       ∃ x y, _get_trait_probability c true = Ok x
              ∧ _get_trait_probability c false = Ok y
              ∧ (x + y = 1)%float)
  ∧ (∀ c t, 2 < c →
       dict_get PROBS.gene c = Raise KeyError
       ∧ _get_trait_probability c t = Raise KeyError).
Proof.
  split_and!.
  - vm_compute. reflexivity.
  - intros c Hc. destruct c as [|[|[|c]]]; [..|lia];
      eexists _, _; (split_and!; [reflexivity|reflexivity|vm_compute; reflexivity]).
  - intros c t Hc. destruct c as [|[|[|c]]]; try lia. done.
Qed.

Lemma PROBS_tables_are_distributions_witness :
  ∃ x y, _get_trait_probability 1 true = Ok x
         ∧ _get_trait_probability 1 false = Ok y
         ∧ (x + y = 1)%float.
Proof.
  apply (proj1 (proj2 PROBS_tables_are_distributions) 1). lia.
Defined.

(** ** Symmetry in the parents *)

Lemma child_probability_comm (a b gene : nat) :
  Spec.child_probability (_get_pass_probability a) (_get_pass_probability b) gene
  = Spec.child_probability (_get_pass_probability b) (_get_pass_probability a) gene.
Proof.
  destruct a as [|[|a]], b as [|[|b]], gene as [|[|gene]]; vm_compute; reflexivity.
Qed.

(** X10: exchanging a person's mother and father does not change the
    probability of any of their gene counts, to the last bit. *)
Theorem gene_probability_parents_exchanged
    (people people' : dict string person) (p p' : person) (who : string)
    (one_gene two_genes : gset string) (gene : nat) :
  dict_get people who = Ok p →
  dict_get people' who = Ok p' →
  mother p' = father p →
  father p' = mother p →
  _get_gene_probability one_gene two_genes people' who gene
  = _get_gene_probability one_gene two_genes people who gene.
Proof.
  intros Hp Hp' Hm Hf.
  destruct (decide (mother p = None ∧ father p = None)) as [[Hpm Hpf]|Hparent].
  - rewrite (gene_probability_founder _ _ people _ p),
      (gene_probability_founder _ _ people' _ p'); congruence.
  - rewrite (gene_probability_child _ _ people _ p),
      (gene_probability_child _ _ people' _ p'); try done.
    + rewrite Hm, Hf. f_equal. apply child_probability_comm.
    + rewrite Hm, Hf. destruct (mother p), (father p);
        first [left; discriminate | right; discriminate | tauto].
    + destruct (mother p), (father p);
        first [left; discriminate | right; discriminate | tauto].
Qed.

Lemma gene_probability_parents_exchanged_witness :
  _get_gene_probability {["Lily"]} ∅
    [("Harry", Person "Harry" (Some "James") (Some "Lily") None)] "Harry" 1
  = _get_gene_probability {["Lily"]} ∅ (load_data family0) "Harry" 1.
Proof.
  apply (gene_probability_parents_exchanged (load_data family0)
           [("Harry", Person "Harry" (Some "James") (Some "Lily") None)]
           (Person "Harry" (Some "Lily") (Some "James") None)
           (Person "Harry" (Some "James") (Some "Lily") None));
    reflexivity.
Defined.

(** ** Observations play no part in the joint probability *)

Lemma dict_get_same_parents (people people' : dict string person) (n : string) :
  Forall2 (λ a b, a.1 = b.1 ∧ mother a.2 = mother b.2 ∧ father a.2 = father b.2)
    people people' →
  match dict_get people n, dict_get people' n with
  | Ok p, Ok p' => mother p = mother p' ∧ father p = father p'
  | Raise e, Raise e' => e = e'
  | _, _ => False
  end.
Proof.
  induction 1 as [|[k p] [k' p'] ?? (Hk & Hm & Hf) _ IH]; simpl in *; [done|].
  subst k'. by case_decide.
Qed.

(** X11: [joint_probability] reads the parents of each person and nothing
    else: two populations with the same names in the same order and the
    same parents get the same joint probability, whatever their observed
    traits and [name] fields are. *)
Theorem joint_probability_ignores_observations
    (people people' : dict string person) (one_gene two_genes have_trait : gset string) :
  Forall2 (λ a b, a.1 = b.1 ∧ mother a.2 = mother b.2 ∧ father a.2 = father b.2)
    people people' →
  joint_probability people one_gene two_genes have_trait
  = joint_probability people' one_gene two_genes have_trait.
Proof.
  intros Hsame. unfold joint_probability.
  assert (keys people = keys people') as <-.
  { unfold keys. clear -Hsame.
    induction Hsame as [|a b ?? [Hfst _] _ IH]; [done|].
    cbn [fmap list_fmap]. by rewrite Hfst, IH. }
  f_equal. generalize (keys people). intros names.
  induction names as [|n names IH]; [done|]. cbn [mapM]. rewrite IH. f_equal.
  unfold person_probability, _get_gene_probability.
  pose proof (dict_get_same_parents people people' n Hsame) as Hn.
  destruct (dict_get people n) as [p|e], (dict_get people' n) as [p'|e'];
    try done; [|by subst].
  destruct Hn as [Hm Hf]. cbn [mbind result_bind]. by rewrite Hm, Hf.
Qed.

Lemma joint_probability_ignores_observations_witness :
  joint_probability [("James", Person "Jim" None None (Some false))]
    ∅ {["James"]} {["James"]}
  = joint_probability [("James", Person "James" None None (Some true))]
      ∅ {["James"]} {["James"]}.
Proof.
  apply (joint_probability_ignores_observations
           [("James", Person "Jim" None None (Some false))]
           [("James", Person "James" None None (Some true))]).
  repeat constructor.
Defined.

(** ** More on the engine, for every order of iteration over sets *)

Lemma combinations_full {A : Type} (l : list A) : combinations l (length l) = [l].
Proof.
  induction l as [|x l IH]; [done|]. cbn [length combinations].
  by rewrite IH, combinations_too_long by lia.
Qed.

Section EngineMore.
Variable iter_set : gset string → list string.
Hypothesis iter_set_perm : ∀ s, iter_set s ≡ₚ elements s.

(** X12: [fails_evidence] never raises on the names of the population, and
    it answers [True] exactly when some person has an observed trait that
    differs from their membership in [have_trait]. *)
Theorem fails_evidence_iff (people : dict string person) (have_trait : gset string) :
  ∃ b : bool,
    fails_evidence iter_set people (list_to_set (keys people)) have_trait = Ok b
    ∧ (b = true ↔
       ∃ n p t, dict_get people n = Ok p ∧ trait p = Some t
                ∧ t ≠ bool_decide (n ∈ have_trait)).
Proof using iter_set_perm.
  destruct (fails_evidence_Ok iter_set iter_set_perm people have_trait)
    as (b & Hb & Hfalse & Htrue).
  exists b. split; [done|]. split.
  - intros (n & p & Hp & Hsome & Hne)%Htrue.
    destruct (trait p) as [t|] eqn:Ht; [|done].
    exists n, p, t. split_and!; [done|done|congruence].
  - intros (n & p & t & Hp & Ht & Hne). destruct b; [done|].
    destruct (Hfalse eq_refl n p Hp); congruence.
Qed.

Lemma accumulate_invariant_joint (Q : string * Dist.t → Prop) people :
  (∀ n, Q (n, {| Dist.gene := [(2, 0%float); (1, 0%float); (0, 0%float)];
                 Dist.trait := [(true, 0%float); (false, 0%float)] |})) →
  (∀ one_gene two_genes have_trait p item item',
     joint_probability people one_gene two_genes have_trait = Ok p →
     well_shaped item.2 →
     updated one_gene two_genes have_trait p item item' → Q item → Q item') →
  ∃ probabilities,
    accumulate iter_set people = Ok probabilities
    ∧ keys probabilities = keys people
    ∧ Forall (λ item, well_shaped item.2 ∧ Q item) probabilities.
Proof using iter_set_perm.
  intros Hinit Hstep. unfold accumulate.
  set (names := list_to_set (keys people) : gset string).
  set (Inv := λ probabilities : dict string Dist.t,
         keys probabilities = keys people
         ∧ Forall (λ item, well_shaped item.2 ∧ Q item) probabilities).
  apply (for_each_inv Inv).
  { split.
    - unfold keys. rewrite <- list_fmap_compose. apply list_fmap_id.
    - apply Forall_fmap, Forall_forall. intros n _. split; [done|apply Hinit]. }
  intros probabilities have_trait _ Hinv.
  destruct (fails_evidence_Ok iter_set iter_set_perm people have_trait) as (b & Hb & _).
  fold names in Hb. rewrite Hb. simpl. destruct b; [eauto|].
  apply (for_each_inv Inv); [done|]. intros probabilities1 one_gene _ Hinv1.
  apply (for_each_inv Inv); [done|]. intros probabilities2 two_genes _ [Hkeys Hall].
  destruct (joint_probability_Ok people one_gene two_genes have_trait) as [p Hp].
  rewrite Hp. simpl.
  destruct (update_spec probabilities2 one_gene two_genes have_trait p)
    as (probabilities' & -> & Hupd).
  { eapply Forall_impl; [done|]. by intros ? [? ?]. }
  eexists. split; [done|]. split.
  - rewrite <- Hkeys. unfold keys. clear -Hupd.
    induction Hupd as [|item item' ?? [Hfst _] _ IH]; [done|].
    cbn [fmap list_fmap]. by rewrite Hfst, IH.
  - clear Hkeys. induction Hupd as [|item item' ?? Hitem _ IH]; [constructor|].
    apply Forall_cons in Hall as [[Hshape HQ] Hall].
    constructor; [|auto]. split; [apply Hitem|]. by eapply Hstep.
Qed.

(** X13: the loop of [main] ends without exception for every population;
    it leaves one entry per person, in the order of the population, each
    with its three gene buckets and two trait buckets, and every
    accumulated weight is a number that is not negative. *)
Theorem accumulate_weights_nonneg (people : dict string person) :
  ∃ probabilities,
    accumulate iter_set people = Ok probabilities
    ∧ keys probabilities = keys people
    ∧ Forall (λ item, well_shaped item.2 ∧ weights_nonneg item.2) probabilities.
Proof using iter_set_perm.
  apply (accumulate_invariant_joint (λ item, weights_nonneg item.2)).
  - intros n. split; intros k v; cbn [snd Dist.gene Dist.trait dict_get].
    + repeat case_decide; intros [= <-]; reflexivity.
    + repeat case_decide; intros [= <-]; reflexivity.
  - intros one_gene two_genes have_trait p item item' Hp [Hg Ht]
      (_ & [Hg' Ht'] & Hgene & Htrait) [Hgn Htn].
    destruct (joint_probability_nonneg people one_gene two_genes have_trait)
      as (p' & Hp' & Hnonneg).
    assert (p' = p) as -> by congruence.
    split; intros k v' Hv'.
    + destruct (dict_get_in_keys (Dist.gene item.2) k) as [v Hv].
      { rewrite Hg, <- Hg'. apply dict_get_elem_of in Hv'.
        apply list_elem_of_fmap. by eexists (_, _). }
      rewrite (Hgene _ _ Hv) in Hv'. injection Hv' as <-.
      destruct (decide (k = _)); [|by eapply Hgn].
      apply nonneg_leb, add_nonneg; [|done]. apply leb_0_nonneg. by eapply Hgn.
    + destruct (dict_get_in_keys (Dist.trait item.2) k) as [v Hv].
      { rewrite Ht, <- Ht'. apply dict_get_elem_of in Hv'.
        apply list_elem_of_fmap. by eexists (_, _). }
      rewrite (Htrait _ _ Hv) in Hv'. injection Hv' as <-.
      destruct (decide (k = _)); [|by eapply Htn].
      apply nonneg_leb, add_nonneg; [|done]. apply leb_0_nonneg. by eapply Htn.
Qed.


(** X15: [powerset] lists the empty set first and the whole set last. *)
Theorem powerset_first_last (s : gset string) :
  head (powerset iter_set s) = Some ∅ ∧ last (powerset iter_set s) = Some s.
Proof using iter_set_perm.
  unfold powerset. split.
  - rewrite Nat.add_1_r, bind_seq_S, combinations_0. reflexivity.
  - rewrite Nat.add_1_r, seq_S, bind_app, fmap_app. cbn [mbind list_bind Nat.add].
    rewrite combinations_full, app_nil_r. cbn [fmap list_fmap].
    rewrite last_snoc. f_equal. apply set_eq. intros x.
    by rewrite elem_of_list_to_set, elem_of_iter_set.
Qed.
End EngineMore.

(** X16: the subsets [powerset] returns do not depend on the order in which
    the set is walked; only their order in the list does. *)
Theorem powerset_order_irrelevant (iter_set1 iter_set2 : gset string → list string)
    (s : gset string) :
  (∀ s, iter_set1 s ≡ₚ elements s) →
  (∀ s, iter_set2 s ≡ₚ elements s) →
  powerset iter_set1 s ≡ₚ powerset iter_set2 s.
Proof.
  intros Hperm1 Hperm2. apply NoDup_Permutation.
  - by apply NoDup_powerset.
  - by apply NoDup_powerset.
  - intros X. by rewrite !elem_of_powerset.
Qed.

Lemma fails_evidence_iff_witness :
  ∃ b : bool,
    fails_evidence elements (load_data family0) (list_to_set (keys (load_data family0)))
      {["Lily"]} = Ok b
    ∧ (b = true ↔
       ∃ n p t, dict_get (load_data family0) n = Ok p ∧ trait p = Some t
                ∧ t ≠ bool_decide (n ∈ ({["Lily"]} : gset string))).
Proof. apply (fails_evidence_iff elements elements_perm). Defined.

Lemma accumulate_weights_nonneg_witness :
  ∃ probabilities,
    accumulate elements (load_data family0) = Ok probabilities
    ∧ keys probabilities = ["Harry"; "James"; "Lily"]
    ∧ Forall (λ item, well_shaped item.2 ∧ weights_nonneg item.2) probabilities.
Proof. apply (accumulate_weights_nonneg elements elements_perm (load_data family0)). Defined.


Lemma powerset_first_last_witness :
  head (powerset elements {["Harry"; "James"]}) = Some ∅
  ∧ last (powerset elements {["Harry"; "James"]}) = Some {["Harry"; "James"]}.
Proof. apply (powerset_first_last elements elements_perm). Defined.

Lemma powerset_order_irrelevant_witness :
  powerset elements {["Harry"; "James"]}
  ≡ₚ powerset (λ s, reverse (elements s)) {["Harry"; "James"]}.
Proof.
  apply powerset_order_irrelevant.
  - intros s. reflexivity.
  - intros s. apply reverse_Permutation.
Defined.

(** ** The number of gene assignments *)

Section Counting.
Context {A : Type}.
Implicit Types (l t : list A).

Lemma sum_list_with_ext_elem {B : Type} (f g : B → nat) (k : list B) :
  (∀ x, x ∈ k → f x = g x) → sum_list_with f k = sum_list_with g k.
Proof.
  induction k as [|x k IH]; intros Hfg; [done|]. cbn [sum_list_with].
  rewrite (Hfg x) by left. rewrite IH; [done|]. intros y Hy. apply Hfg. by right.
Qed.

Lemma sum_list_with_double {B : Type} (f g : B → nat) (k : list B) :
  (∀ x, x ∈ k → f x = 2 * g x) → sum_list_with f k = 2 * sum_list_with g k.
Proof.
  induction k as [|x k IH]; intros Hfg; [done|]. cbn [sum_list_with].
  rewrite (Hfg x) by left. rewrite IH; [lia|]. intros y Hy. apply Hfg. by right.
Qed.

Lemma sum_list_with_fmap {B C : Type} (f : C → nat) (h : B → C) (k : list B) :
  sum_list_with f (h <$> k) = sum_list_with (f ∘ h) k.
Proof. induction k as [|x k IH]; [done|]. cbn. by rewrite IH. Qed.

Lemma sum_bind_app {B : Type} (f : list A → nat) (g1 g2 : B → list (list A))
    (k : list B) :
  sum_list_with f (k ≫= λ x, g1 x ++ g2 x)
  = sum_list_with f (k ≫= g1) + sum_list_with f (k ≫= g2).
Proof.
  induction k as [|x k IH]; [done|].
  cbn [mbind list_bind]. rewrite !sum_list_with_app.
  cbn [mbind list_bind] in IH. lia.
Qed.

Lemma sum_bind_fmap {B : Type} (f : list A → nat) (h : list A → list A)
    (g : B → list (list A)) (k : list B) :
  sum_list_with f (k ≫= λ x, h <$> g x) = sum_list_with (f ∘ h) (k ≫= g).
Proof.
  induction k as [|x k IH]; [done|].
  cbn [mbind list_bind]. rewrite !sum_list_with_app, sum_list_with_fmap.
  cbn [mbind list_bind] in IH. lia.
Qed.

(** Each combination [t] of [l] counted with the weight [2 ^ (|l| - |t|)]:
    the total is [3 ^ |l|]. *)
Lemma weighted_combinations l m :
  length l < m →
  sum_list_with (λ t, 2 ^ (length l - length t)) (seq 0 m ≫= combinations l)
  = 3 ^ length l.
Proof.
  revert m. induction l as [|x l IH]; intros [|m] Hm; simpl in Hm; try lia.
  - rewrite bind_seq_S. cbn [combinations app sum_list_with length].
    replace (seq 0 m ≫= λ r, combinations [] (S r)) with (@nil (list A)); [done|].
    generalize (seq 0 m). intros k. by induction k.
  - rewrite bind_seq_S, combinations_0. cbn [combinations].
    rewrite sum_list_with_app, sum_bind_app, sum_bind_fmap.
    rewrite (sum_list_with_ext_elem (_ ∘ cons x) (λ t, 2 ^ (length l - length t)))
      by (intros; reflexivity).
    rewrite IH by lia.
    assert (sum_list_with (λ t, 2 ^ (length (x :: l) - length t))
              (seq 0 (S m) ≫= combinations l) = 2 * 3 ^ length l) as Hrest.
    { rewrite <- (IH (S m)) by lia. apply sum_list_with_double.
      intros t (r & [Hsub _]%elem_of_combinations & _)%list_elem_of_bind.
      apply sublist_length in Hsub. cbn [length].
      replace (S (length l) - length t) with (S (length l - length t)) by lia.
      by rewrite Nat.pow_succ_r'. }
    rewrite bind_seq_S, combinations_0, sum_list_with_app in Hrest.
    cbn [length] in *. rewrite Nat.pow_succ_r'. lia.
Qed.
End Counting.

Section EngineCount.
Variable iter_set : gset string → list string.
Hypothesis iter_set_perm : ∀ s, iter_set s ≡ₚ elements s.

(** X17: for a population of [n] names, the two nested loops over
    [one_gene] and [two_genes] go through [3 ^ n] pairs: that many joint
    probabilities are computed for each [have_trait] that passes the
    evidence test. *)
Theorem gene_assignments_count (names : gset string) :
  sum_list_with (λ one_gene, length (powerset iter_set (names ∖ one_gene)))
    (powerset iter_set names)
  = 3 ^ size names.
Proof using iter_set_perm.
  rewrite <- (length_iter_set iter_set iter_set_perm names).
  rewrite <- (weighted_combinations (iter_set names) (length (iter_set names) + 1)) by lia.
  unfold powerset at 2. rewrite sum_list_with_fmap.
  apply sum_list_with_ext_elem.
  intros t Hsub%elem_of_all_combinations. cbn [compose].
  rewrite (length_powerset iter_set iter_set_perm). f_equal.
  rewrite size_difference.
  - rewrite size_list_to_set, (length_iter_set iter_set iter_set_perm); [done|].
    eapply sublist_NoDup; [|done]. by apply NoDup_iter_set.
  - intros x Hx%elem_of_list_to_set.
    eapply (elem_of_iter_set iter_set iter_set_perm), elem_of_sublist; done.
Qed.
End EngineCount.

Lemma gene_assignments_count_witness :
  sum_list_with (λ one_gene,
                   length (powerset elements ({["Harry"; "James"; "Lily"]} ∖ one_gene)))
    (powerset elements {["Harry"; "James"; "Lily"]})
  = 27.
Proof.
  rewrite (gene_assignments_count elements elements_perm {["Harry"; "James"; "Lily"]}).
  vm_compute. reflexivity.
Defined.

(** ** Every gene assignment is met once *)

Section EngineAssignments.
Variable iter_set : gset string → list string.
Hypothesis iter_set_perm : ∀ s, iter_set s ≡ₚ elements s.

(** X18: every way of giving each name of the population 0, 1 or 2 copies
    is the gene count of exactly one pair ([one_gene], [two_genes]) that
    the two nested loops go through. *)
Theorem every_assignment_enumerated_once (names : gset string) (f : string → nat) :
  (∀ n, n ∈ names → f n ≤ 2) →
  ∃ one_gene two_genes,
    one_gene ∈ powerset iter_set names
    ∧ two_genes ∈ powerset iter_set (names ∖ one_gene)
    ∧ (∀ n, n ∈ names → get_gene_count (Some n) one_gene two_genes = f n)
    ∧ ∀ one_gene' two_genes',
        one_gene' ∈ powerset iter_set names →
        two_genes' ∈ powerset iter_set (names ∖ one_gene') →
        (∀ n, n ∈ names → get_gene_count (Some n) one_gene' two_genes' = f n) →
        one_gene' = one_gene ∧ two_genes' = two_genes.
Proof using iter_set_perm.
  intros Hf.
  exists (filter (λ n, f n = 1) names), (filter (λ n, f n = 2) names).
  rewrite !(elem_of_powerset iter_set iter_set_perm).
  assert (∀ one_gene two_genes n,
            get_gene_count (Some n) one_gene two_genes
            = if decide (n ∈ one_gene) then 1 else if decide (n ∈ two_genes) then 2 else 0)
    as Hcount.
  { intros. unfold get_gene_count, py_in. by repeat case_bool_decide; repeat case_decide. }
  split_and!.
  - intros n [_ ?]%elem_of_filter. done.
  - intros n [Hn ?]%elem_of_filter. apply elem_of_difference. split; [done|].
    intros [? _]%elem_of_filter. lia.
  - intros n Hn. rewrite Hcount. specialize (Hf n Hn).
    repeat case_decide; repeat match goal with
                               | H : _ ∈ filter _ _ |- _ => apply elem_of_filter in H as [? ?]
                               | H : _ ∉ filter _ _ |- _ => rewrite elem_of_filter in H
                               end; try lia.
    destruct (f n) as [|[|[|k]]]; try lia; tauto.
  - intros one_gene' two_genes'.
    rewrite !(elem_of_powerset iter_set iter_set_perm). intros Hone Htwo Hsame.
    split; apply set_eq; intros n; rewrite elem_of_filter.
    + split.
      * intros Hn. pose proof (Hsame n (Hone n Hn)) as Hfn.
        rewrite Hcount, decide_True in Hfn by done. auto.
      * intros [Hfn Hn]. specialize (Hsame n Hn). rewrite Hcount in Hsame.
        repeat case_decide; try done; lia.
    + split.
      * intros Hn. pose proof (Htwo n Hn) as [Hnames Hnot]%elem_of_difference.
        pose proof (Hsame n Hnames) as Hfn.
        rewrite Hcount, decide_False, decide_True in Hfn by done. auto.
      * intros [Hfn Hn]. specialize (Hsame n Hn). rewrite Hcount in Hsame.
        repeat case_decide; try done; lia.
Qed.
End EngineAssignments.

Lemma every_assignment_enumerated_once_witness :
  ∃ one_gene two_genes,
    one_gene ∈ powerset elements {["Harry"; "James"]}
    ∧ two_genes ∈ powerset elements ({["Harry"; "James"]} ∖ one_gene)
    ∧ ∀ n, n ∈ ({["Harry"; "James"]} : gset string) →
           get_gene_count (Some n) one_gene two_genes = 2.
Proof.
  destruct (every_assignment_enumerated_once elements elements_perm
              {["Harry"; "James"]} (λ _, 2)) as (one_gene & two_genes & ? & ? & ? & _).
  - intros n _. lia.
  - by exists one_gene, two_genes.
Defined.

Lemma update_fails_iff_witness :
  update [("Harry", Dist.Make [(1, 0%float); (0, 0%float)]
                              [(true, 0%float); (false, 0%float)])]
         ∅ {["Harry"]} ∅ 0.5
  = Raise KeyError.
Proof.
  apply (update_fails_iff
           [("Harry", Dist.Make [(1, 0%float); (0, 0%float)]
                                [(true, 0%float); (false, 0%float)])]
           ∅ {["Harry"]} ∅ 0.5).
  eexists. split; [left|]. left. vm_compute. intros Hin.
  repeat (apply elem_of_cons in Hin as [Hin|Hin]; [discriminate|]).
  by apply elem_of_nil in Hin.
Defined.
